(** * PeerJS signaling server: liveness sweeper, socket.io gateway, instance wiring

    A shallow embedding of

    - [services/checkBrokenConnections] (class [CheckBrokenConnections]),
    - [services/socketioServer] (class [SocketIOServer]),
    - [instance.ts] (function [createInstance]),

    together with the properties of the signaling core that can be read
    off these three units.

    Conventions.  JavaScript objects that are shared and mutated (the
    [Client] records held by the realm and captured by listener closures)
    live in a store addressed by references; calls on objects that belong
    to the platform (sockets, event emitters, callbacks) are recorded, in
    program order, in a trace of effects; exceptions are explicit
    completions. *)

From stdpp Require Import base option list strings functions gmap.
From Stdlib Require Import ZArith Lia.

Local Open Scope string_scope.
Local Open Scope list_scope.

(** ** Values *)

(** A raised JavaScript value; only its message matters here. *)
Definition Error : Type := string.

(** The two classes a transport handle can be an instance of
    ([socket instanceof WebSocket], [socket instanceof Socket]).  The
    number is the identity of the object: [===] on handles compares it. *)
Inductive Transport : Type :=
| WebSocket (oid : nat)
| Socket (oid : nat).

#[global] Instance Transport_eq_dec : EqDecision Transport.
Proof. solve_decision. Defined.

(** Tables keyed by strings that keep the order of insertion, as a
    JavaScript [Map] and the own properties of an object do: a write
    replaces the value of an existing key in place and appends a new
    key; a delete removes the key. *)
Fixpoint assoc {A} (k : string) (l : list (string * A)) : option A :=
  match l with
  | [] => None
  | (k', v) :: rest => if decide (k' = k) then Some v else assoc k rest
  end.

Fixpoint assoc_set {A} (k : string) (x : A) (l : list (string * A))
  : list (string * A) :=
  match l with
  | [] => [(k, x)]
  | (k', v) :: rest =>
      if decide (k' = k) then (k, x) :: rest else (k', v) :: assoc_set k x rest
  end.

Fixpoint assoc_del {A} (k : string) (l : list (string * A))
  : list (string * A) :=
  match l with
  | [] => []
  | (k', v) :: rest =>
      if decide (k' = k) then assoc_del k rest else (k', v) :: assoc_del k rest
  end.

(** JavaScript values as they arrive in a data frame or come out of
    [JSON.parse].  Arrays are objects too (a property can be set on
    them), hence the class tag on [JObject]. *)
Inductive ObjClass : Type := PlainObject | ArrayObject.

#[warnings="-register-all"]
Inductive JValue : Type :=
| JUndefined
| JNull
| JBool (b : bool)
| JNumber (n : Z)
| JString (s : string)
| JObject (cls : ObjClass) (props : list (string * JValue)).

(** Own-property read and write on a property list. *)
Definition getProp (k : string) (props : list (string * JValue)) : option JValue :=
  assoc k props.
Definition setProp (k : string) (x : JValue) (props : list (string * JValue))
  : list (string * JValue) :=
  assoc_set k x props.

(** Modelled from the spec: [enums.ts] is not among the sources.  The
    members are the ones the gateway names; the spec calls them
    InvalidParameters, InvalidKey and ConnectionLimitExceeded, and lists
    OPEN, ERROR and ID-TAKEN among the control message types. *)
Inductive Errors : Type :=
| INVALID_KEY
| INVALID_WS_PARAMETERS
| CONNECTION_LIMIT_EXCEED.

(** Modelled from the spec: the control message types of [enums.ts]
    that the gateway sends, OPEN, ERROR and ID-TAKEN. *)
Inductive MessageType : Type := OPEN | ERROR | ID_TAKEN.

(** The object literals the gateway sends on a socket:
    [{type: ERROR, msg}], [{type: ID_TAKEN, msg: "ID is taken"}],
    [{type: OPEN}]. *)
Inductive MsgText : Type :=
| ErrorsText (e : Errors)
| Text (s : string).

Record Outgoing : Type := mkOutgoing {
  out_type : MessageType;
  out_msg : option MsgText
}.

(** ** Client records *)

(** Modelled from the spec: [models/client.ts] is not among the sources.
    An identity record has an id, a token, a nullable transport handle
    and a last-seen timestamp; id and token never change. *)
Record Client : Type := mkClient {
  client_id : string;
  client_token : string;
  client_socket : option Transport;
  client_lastPing : Z
}.

(** Modelled from the spec: the accessors of [models/client.ts] read
    the fields of the record, and [setSocket] replaces the handle. *)
Definition getId (c : Client) : string := client_id c.
Definition getToken (c : Client) : string := client_token c.
Definition getSocket (c : Client) : option Transport := client_socket c.
Definition getLastPing (c : Client) : Z := client_lastPing c.
Definition setSocket (s : option Transport) (c : Client) : Client :=
  mkClient (client_id c) (client_token c) s (client_lastPing c).

(** A reference to a [Client] object. *)
Definition ClientRef : Type := nat.

(** ** Realm *)

(** Modelled from the spec: [models/realm.ts] is not among the sources.
    The registry is an in-memory table from ids to identity records plus
    a table of pending queues; [getClientById] is the spec's [lookup],
    [getClientsIds] its [allIds] (a snapshot, in registration order),
    [removeClientById] its [remove] (the record and its queue are
    discarded), [setClient] the creation of a record, and the length of
    [getClientsIds] its [count]. *)
Module Realm.

(** Modelled from the spec: the identity table and the pending
    queues of [models/realm.ts]. *)
Record t : Type := mk {
  clients : list (string * ClientRef);
  messageQueues : list (string * list JValue)
}.

(** Modelled from the spec: [new Realm()], with nothing registered. *)
Definition empty : t := mk [] [].

(** Modelled from the spec: [allIds() -> sequence of ids]. *)
Definition getClientsIds (r : t) : list string := (clients r).*1.

(** Modelled from the spec: [lookup(id) -> record | absent]. *)
Definition getClientById (r : t) (id : string) : option ClientRef :=
  assoc id (clients r).

(** Modelled from the spec: the creation of the record of an id. *)
Definition setClient (client : ClientRef) (id : string) (r : t) : t :=
  mk (assoc_set id client (clients r)) (messageQueues r).

(** Modelled from the spec: the queue of an id is emptied and dropped. *)
Definition clearMessageQueue (id : string) (r : t) : t :=
  mk (clients r) (assoc_del id (messageQueues r)).

(** Modelled from the spec: [remove(id)] discards the identity record
    and its queue and does not close the handle.  The registry holds
    references to record objects: the record, and the handle with it,
    leave the registry; the record object, which a caller may still
    hold, is left as it is. *)
Definition removeClientById (id : string) (r : t) : t :=
  mk (assoc_del id (clients r)) (assoc_del id (messageQueues r)).

(** Modelled from the spec: the pending queue of an id, if it has one. *)
Definition getMessageQueueById (r : t) (id : string) : option (list JValue) :=
  assoc id (messageQueues r).

(** Modelled from the spec: [count() -> number of registered
    identities]; the gateway computes it as the length of
    [getClientsIds()]. *)
Definition count (r : t) : nat := length (getClientsIds r).

End Realm.

(** ** The world: store, registry, listeners, effects *)

(** Events a gateway emits as an [EventEmitter]. *)
Inductive Emitted : Type :=
| EvConnection (client : ClientRef)
| EvMessage (client : ClientRef) (message : JValue)
| EvClose (client : ClientRef)
| EvError (e : Error).

(** An event emitted on the enclosing application: [app.emit(ev, client)]. *)
Inductive AppEvent : Type :=
| AppEmit (ev : string) (client : ClientRef).

(** Calls on platform objects, in the order they are made. *)
Inductive Effect : Type :=
| SocketEmit (s : Transport) (m : Outgoing)   (* socket.emit("message", m) *)
| SocketDisconnect (s : Transport)            (* socket.disconnect() *)
| SocketClose (s : Transport)                 (* socket.close() *)
| Emit (ev : Emitted)                         (* this.emit(...) *)
| OnClose (client : ClientRef)                (* this.onClose(client) *)
| App (a : AppEvent).                         (* made by a callback *)

Record World : Type := mkWorld {
  heap : ClientRef → Client;          (* the Client objects *)
  nextRef : ClientRef;                (* the next object to allocate *)
  realm : Realm.t;
  listeners : list (Transport * ClientRef);
      (* the (socket, client) pairs of the closures installed by socket.on
         on a connection; listeners on the socket server are not kept *)
  trace : list Effect
}.

Definition setHeap (h : ClientRef → Client) (w : World) : World :=
  mkWorld h (nextRef w) (realm w) (listeners w) (trace w).
Definition setRealm (r : Realm.t) (w : World) : World :=
  mkWorld (heap w) (nextRef w) r (listeners w) (trace w).
Definition addListener (s : Transport) (c : ClientRef) (w : World) : World :=
  mkWorld (heap w) (nextRef w) (realm w) (listeners w ++ [(s, c)]) (trace w).
Definition perform (e : Effect) (w : World) : World :=
  mkWorld (heap w) (nextRef w) (realm w) (listeners w) (trace w ++ [e]).

Definition performAll (es : list Effect) (w : World) : World :=
  mkWorld (heap w) (nextRef w) (realm w) (listeners w) (trace w ++ es).

(** [client.setSocket(s)] on the object behind a reference. *)
Definition clientSetSocket (c : ClientRef) (s : option Transport) (w : World) : World :=
  setHeap (<[c := setSocket s (heap w c)]> (heap w)) w.

(** [new Client({id, token})]: a fresh object, no socket yet. *)
Definition newClient (id token : string) (now : Z) (w : World) : ClientRef * World :=
  (nextRef w,
   mkWorld (<[nextRef w := mkClient id token None now]> (heap w))
           (S (nextRef w)) (realm w) (listeners w) (trace w)).

Definition emptyWorld : World :=
  mkWorld (λ _, mkClient "" "" None 0) 0 Realm.empty [] [].

(** ** Computations that may raise *)

Inductive Completion (A : Type) : Type :=
| Normal (a : A)
| Throw (e : Error).
Arguments Normal {A} a.
Arguments Throw {A} e.

Definition M (A : Type) : Type := World → Completion A * World.

#[global] Instance M_ret : MRet M := λ A a w, (Normal a, w).
#[global] Instance M_bind : MBind M := λ A B k m w,
  match m w with
  | (Normal a, w1) => k a w1
  | (Throw e, w1) => (Throw e, w1)
  end.

Definition throw {A} (e : Error) : M A := λ w, (Throw e, w).
Definition gets {A} (f : World → A) : M A := λ w, (Normal (f w), w).
Definition modify (f : World → World) : M unit := λ w, (Normal tt, f w).

(** [try { body } finally { fin }]: [fin] always runs; the completion of
    [body] is kept unless [fin] itself raises. *)
Definition tryFinally {A} (body : M A) (fin : M unit) : M A := λ w,
  let '(r, w1) := body w in
  match fin w1 with
  | (Normal _, w2) => (r, w2)
  | (Throw e, w2) => (Throw e, w2)
  end.

(** [try { body } catch (e) { handler e }]. *)
Definition tryCatch {A} (body : M A) (handler : Error → M A) : M A := λ w,
  match body w with
  | (Normal a, w1) => (Normal a, w1)
  | (Throw e, w1) => handler e w1
  end.

(** [for (const x of xs) body x]: an exception leaves the loop. *)
Fixpoint forOf {A} (xs : list A) (body : A → M unit) : M unit :=
  match xs with
  | [] => mret tt
  | x :: rest => body x ;; forOf rest body
  end.

(** ** Configuration *)

(** Modelled from the spec: [config/index.ts] is not among the sources.
    Only the inputs read by the units below are kept; the two numbers
    are integers. *)
Record IConfig : Type := mkConfig {
  server_type : string;
  key : string;
  concurrent_limit : Z;
  alive_timeout : Z
}.

(** ** Timers *)

(** The platform's one-shot timers: [setTimeout] arms a timer that is
    due [delay] after the call and returns its handle; [clearTimeout]
    disarms it.  A timer that has fired is no longer pending. *)
Definition TimerId : Type := nat.

Record Timers : Type := mkTimers {
  nextTimer : TimerId;
  pending : list (TimerId * Z)
}.

Definition noTimers : Timers := mkTimers 0 [].

Definition setTimeout (delay now : Z) (t : Timers) : TimerId * Timers :=
  (nextTimer t,
   mkTimers (S (nextTimer t)) (pending t ++ [(nextTimer t, (now + delay)%Z)])).

Definition clearTimeout (i : TimerId) (t : Timers) : Timers :=
  mkTimers (nextTimer t) (filter (λ p, p.1 ≠ i) (pending t)).

(** The first pending timer that is due at [now], if any. *)
Definition dueTimer (now : Z) (t : Timers) : option TimerId :=
  fst <$> head (filter (λ p, (p.2 ≤ now)%Z) (pending t)).

(** ** The liveness sweeper *)

Module CheckBrokenConnections.

Definition DEFAULT_CHECK_INTERVAL : Z := 300.

Record t : Type := mk {
  checkInterval : Z;
  timeoutId : option TimerId;
  config : IConfig;
  onClose : option (ClientRef → list AppEvent)
}.

(** The constructor; [checkInterval] is optional. *)
Definition new (config : IConfig) (checkInterval : option Z)
    (onClose : option (ClientRef → list AppEvent)) : t :=
  mk (default DEFAULT_CHECK_INTERVAL checkInterval) None config onClose.

Definition setTimeoutId (i : option TimerId) (self : t) : t :=
  mk (checkInterval self) i (config self) (onClose self).

Section Pass.

(** What [close()] or [disconnect()] does when called on a transport
    is the transport's business: it returns, or it raises. *)
Variable closeRaises : Transport → option Error.

Definition raiseIf (e : option Error) : M unit :=
  match e with
  | Some e => throw e
  | None => mret tt
  end.

(** The [try] block: close the handle according to its class.  The
    call is recorded, then it returns or raises.  Listeners that the
    transport runs in response (socket.io runs the ["disconnect"]
    listeners of a socket within [disconnect()]) are not run here: the
    trace of a pass has the calls the pass itself makes, not the events
    of those listeners. *)
Definition closeSocket (socket : option Transport) : M unit :=
  match socket with
  | Some (WebSocket o) =>
      modify (perform (SocketClose (WebSocket o))) ;;
      raiseIf (closeRaises (WebSocket o))
  | Some (Socket o) =>
      modify (perform (SocketDisconnect (Socket o))) ;;
      raiseIf (closeRaises (Socket o))
  | None => mret tt
  end.

(** [this.onClose?.(client)]: the call, then what the callback
    does, which is to emit events on the application. *)
Definition callOnClose (self : t) (client : ClientRef) : M unit :=
  match onClose self with
  | Some f =>
      modify (perform (OnClose client)) ;;
      modify (performAll (App <$> f client))
  | None => mret tt
  end.

(** The [finally] block. *)
Definition cleanup (self : t) (clientId : string) (client : ClientRef) : M unit :=
  modify (λ w, setRealm (Realm.clearMessageQueue clientId (realm w)) w) ;;
  modify (λ w, setRealm (Realm.removeClientById clientId (realm w)) w) ;;
  modify (clientSetSocket client None) ;;
  callOnClose self client.

(** The body of the loop, for one id of the snapshot. *)
Definition checkOne (self : t) (now : Z) (clientId : string) : M unit :=
  client ← gets (λ w, Realm.getClientById (realm w) clientId);
  match client with
  | None => mret tt                                     (* continue *)
  | Some client =>
      lastPing ← gets (λ w, getLastPing (heap w client));
      let timeSinceLastPing := (now - lastPing)%Z in
      if (timeSinceLastPing <? alive_timeout (config self))%Z
      then mret tt                                      (* continue *)
      else
        tryFinally
          (socket ← gets (λ w, getSocket (heap w client));
           closeSocket socket)
          (cleanup self clientId client)
  end.

(** [checkConnections()]; [now] is what [new Date().getTime()]
    returned. *)
Definition checkConnections (self : t) (now : Z) : M unit :=
  clientsIds ← gets (λ w, Realm.getClientsIds (realm w));
  forOf clientsIds (checkOne self now).

(** [start()] at clock time [now]. *)
Definition start (now : Z) (st : t * Timers) : t * Timers :=
  let '(self, timers) := st in
  let timers1 :=
    match timeoutId self with
    | Some i => clearTimeout i timers
    | None => timers
    end in
  let '(i, timers2) := setTimeout (checkInterval self) now timers1 in
  (setTimeoutId (Some i) self, timers2).

(** [stop()] *)
Definition stop (st : t * Timers) : t * Timers :=
  let '(self, timers) := st in
  match timeoutId self with
  | Some i => (setTimeoutId None self, clearTimeout i timers)
  | None => (self, timers)
  end.

(** The function handed to [setTimeout] by [start]: a pass, then
    [timeoutId = null], then [start()].  The pass reads the clock at
    [now]; [start] is reached at [tEnd], when the pass has returned.
    If the pass raises, the two statements after it are not run. *)
Definition timerCallback (now tEnd : Z) (st : t * Timers) (w : World)
  : Completion unit * (t * Timers) * World :=
  let '(self, timers) := st in
  match checkConnections self now w with
  | (Normal _, w1) =>
      (Normal tt, start tEnd (setTimeoutId None self, timers), w1)
  | (Throw e, w1) => (Throw e, (self, timers), w1)
  end.

(** The event loop's timer phase at clock time [now]: a due timer is
    taken off the pending list and its callback run. *)
Definition fire (now tEnd : Z) (st : t * Timers) (w : World)
  : Completion unit * (t * Timers) * World :=
  let '(self, timers) := st in
  match dueTimer now timers with
  | Some i => timerCallback now tEnd (self, clearTimeout i timers) w
  | None => (Normal tt, st, w)
  end.

End Pass.

End CheckBrokenConnections.

(** ** The socket.io gateway *)

Module SocketIOServer.

(** A socket.io connection as the ["connection"] event delivers it:
    the object itself, its [id], and the query of its handshake.  The
    values of the query are strings; a parameter given several times,
    which would arrive as an array, is not represented. *)
Record IOSocket : Type := mkSocket {
  socket_oid : nat;
  socket_id : string;
  handshake_query : gmap string string
}.

Definition handle (socket : IOSocket) : Transport := Socket (socket_oid socket).

(** [!v] for a value that is a string or undefined. *)
Definition falsy (v : option string) : bool :=
  match v with
  | Some s => bool_decide (s = "")
  | None => true
  end.

Definition _sendErrorAndClose (socket : IOSocket) (msg : Errors) (w : World) : World :=
  let w1 := perform (SocketEmit (handle socket)
                       (mkOutgoing ERROR (Some (ErrorsText msg)))) w in
  perform (SocketDisconnect (handle socket)) w1.

(** [socket.on("disconnect", ...)] and [socket.on("message", ...)]
    install two closures over the same [socket] and [client]; the
    listener table keeps the pair. *)
Definition _configureSocket (socket : IOSocket) (client : ClientRef) (w : World) : World :=
  let w1 := clientSetSocket client (Some (handle socket)) w in
  let w2 := addListener (handle socket) client w1 in
  perform (Emit (EvConnection client)) w2.

Definition _registerClient (config : IConfig) (socket : IOSocket)
    (id token : string) (now : Z) (w : World) : World :=
  let clientsCount := length (Realm.getClientsIds (realm w)) in
  if (concurrent_limit config <=? Z.of_nat clientsCount)%Z then
    _sendErrorAndClose socket CONNECTION_LIMIT_EXCEED w
  else
    let '(client, w1) := newClient id token now w in
    let w2 := setRealm (Realm.setClient client id (realm w1)) w1 in
    let w3 := perform (SocketEmit (handle socket) (mkOutgoing OPEN None)) w2 in
    _configureSocket socket client w3.

(** [now] is the clock when the connection arrives (a new [Client]
    takes its first timestamp from it).  The function first adds one
    more ["error"] listener to the socket server, which changes nothing
    that is represented here. *)
Definition _onSocketConnection (config : IConfig) (socket : IOSocket)
    (now : Z) (w : World) : World :=
  let token := handshake_query socket !! "token" in
  let key' := handshake_query socket !! "key" in
  let id := socket_id socket in
  if falsy (Some id) || falsy token || falsy key' then
    _sendErrorAndClose socket INVALID_WS_PARAMETERS w
  else if bool_decide (key' ≠ Some (key config)) then
    _sendErrorAndClose socket INVALID_KEY w
  else
    match Realm.getClientById (realm w) id with
    | Some client =>
        if bool_decide (token ≠ Some (getToken (heap w client))) then
          let w1 := perform (SocketEmit (handle socket)
                               (mkOutgoing ID_TAKEN (Some (Text "ID is taken")))) w in
          perform (SocketDisconnect (handle socket)) w1
        else _configureSocket socket client w
    | None => _registerClient config socket id (default "" token) now w
    end.

(** The ["disconnect"] listener of [_configureSocket], for the
    [socket] and [client] it closes over. *)
Definition onDisconnect (socket : Transport) (client : ClientRef) (w : World) : World :=
  if decide (getSocket (heap w client) = Some socket) then
    let w1 := setRealm (Realm.removeClientById (getId (heap w client)) (realm w)) w in
    perform (Emit (EvClose client)) w1
  else w.

Section Frames.

(** [JSON.parse]: a value, or a raised [SyntaxError]. *)
Variable JSON_parse : string → Error + JValue.

(** [message.src = src] in strict code: only an object takes the
    property; on [null], [undefined] and primitives it raises. *)
Definition assignSrc (message : JValue) (src : string) : M JValue :=
  match message with
  | JObject cls props => mret (JObject cls (setProp "src" (JString src) props))
  | _ => throw "TypeError"
  end.

Definition parseFrame (data : JValue) : M JValue :=
  match data with
  | JString text =>
      match JSON_parse text with
      | inr message => mret message
      | inl e => throw e
      end
  | _ => mret data
  end.

(** The ["message"] listener of [_configureSocket]. *)
Definition onMessage (client : ClientRef) (data : JValue) : M unit :=
  tryCatch
    (message ← parseFrame data;
     id ← gets (λ w, getId (heap w client));
     message ← assignSrc message id;
     modify (perform (Emit (EvMessage client message))))
    (λ e, modify (perform (Emit (EvError e)))).

(** What the transport delivers to the gateway. *)
Inductive TransportEvent : Type :=
| Connection (socket : IOSocket) (now : Z)
| Disconnect (socket : Transport)
| Message (socket : Transport) (data : JValue).

(** An event on a socket runs the listeners installed on it. *)
Definition dispatch (config : IConfig) (ev : TransportEvent) (w : World) : World :=
  match ev with
  | Connection socket now => _onSocketConnection config socket now w
  | Disconnect socket =>
      foldl (λ w l, if decide (l.1 = socket) then onDisconnect socket l.2 w else w)
            w (listeners w)
  | Message socket data =>
      foldl (λ w l, if decide (l.1 = socket) then (onMessage l.2 data w).2 else w)
            w (listeners w)
  end.

Definition run (config : IConfig) (evs : list TransportEvent) (w : World) : World :=
  foldl (λ w ev, dispatch config ev w) w evs.

End Frames.

End SocketIOServer.

(** ** Instance wiring *)

Inductive ServerInstance : Type :=
| SocketIOServerInstance
| WebSocketServerInstance.

(** What [createInstance] leaves behind: the registry (inside the
    world), the sweeper if one was made, its timers, and the gateway
    that was chosen.  The API, the message handler, the queue expirer
    and the raw-socket gateway are not among the sources and are not
    represented. *)
Record Instance : Type := mkInstance {
  checkBrokenConnections : option CheckBrokenConnections.t;
  timers : Timers;
  world : World;
  serverInstance : ServerInstance
}.

Definition createInstance (options : IConfig) (now : Z) : Instance :=
  let config := options in
  let checkBrokenConnections :=
    if decide (server_type config ≠ "socketio") then
      Some (CheckBrokenConnections.new config None
              (Some (λ client, [AppEmit "disconnect" client])))
    else None in
  let serverInstance :=
    if decide (server_type config = "socketio")
    then SocketIOServerInstance else WebSocketServerInstance in
  if decide (server_type config ≠ "socketio") then
    match checkBrokenConnections with
    | Some sweeper =>
        let '(sweeper, timers) := CheckBrokenConnections.start now (sweeper, noTimers) in
        mkInstance (Some sweeper) timers emptyWorld serverInstance
    | None => mkInstance None noTimers emptyWorld serverInstance
    end
  else mkInstance checkBrokenConnections noTimers emptyWorld serverInstance.

(** What happens to an instance afterwards.  The sweeper is a local of
    [createInstance] and its timer handle is private: only the timer
    phase of the event loop reaches them, and the only timers are the
    ones a sweeper arms.  Everything else that runs (handshakes, frames,
    disconnects, the expirer) acts on the world. *)
Inductive InstanceEvent : Type :=
| TimerPhase (closeRaises : Transport → option Error) (now tEnd : Z)
| Activity (f : World → World).

Definition instanceStep (inst : Instance) (ev : InstanceEvent) : Instance :=
  match ev with
  | TimerPhase closeRaises now tEnd =>
      match checkBrokenConnections inst with
      | Some sweeper =>
          let '(_, (sweeper', timers'), w') :=
            CheckBrokenConnections.fire closeRaises now tEnd
              (sweeper, timers inst) (world inst) in
          mkInstance (Some sweeper') timers' w' (serverInstance inst)
      | None => inst
      end
  | Activity f =>
      mkInstance (checkBrokenConnections inst) (timers inst) (f (world inst))
                 (serverInstance inst)
  end.

Definition instanceRun (inst : Instance) (evs : list InstanceEvent) : Instance :=
  foldl instanceStep inst evs.

(** ** Vocabulary of the statements *)

(** Every registered record carries the id it is registered under. *)
Definition registry_consistent (w : World) : Prop :=
  Forall (λ p, getId (heap w p.2) = p.1) (Realm.clients (realm w)).

(** A record is stale at [now] when the sweeper's test
    [timeSinceLastPing < aliveTimeout] fails for it. *)
Definition stale (self : CheckBrokenConnections.t) (now : Z) (c : Client) : bool :=
  negb (now - getLastPing c <? alive_timeout (CheckBrokenConnections.config self))%Z.

(** The call the sweeper makes on a handle, by class. *)
Definition closeEffect (socket : option Transport) : list Effect :=
  match socket with
  | Some (WebSocket o) => [SocketClose (WebSocket o)]
  | Some (Socket o) => [SocketDisconnect (Socket o)]
  | None => []
  end.

(** How the sweeper's [try] block completes on a handle: [close] is
    called on it if there is one, and returns or raises. *)
Definition closeOutcome (closeRaises : Transport → option Error)
    (socket : option Transport) : Completion unit :=
  match socket ≫= closeRaises with
  | Some e => Throw e
  | None => Normal tt
  end.

(** The call of the close callback, when one is registered, followed by
    what the callback emits. *)
Definition callbackEffects (self : CheckBrokenConnections.t) (client : ClientRef)
  : list Effect :=
  match CheckBrokenConnections.onClose self with
  | Some f => OnClose client :: (App <$> f client)
  | None => []
  end.

(** The world after the sweeper has dealt with a stale record. *)
Definition evict (self : CheckBrokenConnections.t) (clientId : string)
    (client : ClientRef) (w : World) : World :=
  mkWorld (<[client := setSocket None (heap w client)]> (heap w))
          (nextRef w)
          (Realm.removeClientById clientId (Realm.clearMessageQueue clientId (realm w)))
          (listeners w)
          (trace w ++ closeEffect (getSocket (heap w client))
                   ++ callbackEffects self client).

(** What a sweep can do to a world: records keep their ids, the
    registry and the queues only lose entries, the trace only grows. *)
Definition sweeps_to (w w' : World) : Prop :=
  (registry_consistent w → registry_consistent w')
  ∧ (∀ k x, Realm.getClientById (realm w') k = Some x →
            Realm.getClientById (realm w) k = Some x)
  ∧ (∀ k, Realm.getMessageQueueById (realm w) k = None →
          Realm.getMessageQueueById (realm w') k = None)
  ∧ (∀ c, getId (heap w' c) = getId (heap w c))
  ∧ (Realm.count (realm w') ≤ Realm.count (realm w))%nat
  ∧ (∃ es, trace w' = trace w ++ es).

(** The number of callback calls an eviction makes: one if a callback
    is registered. *)
Definition callsPerEviction (self : CheckBrokenConnections.t) : nat :=
  match CheckBrokenConnections.onClose self with
  | Some _ => 1
  | None => 0
  end.

(** How many times the close callback was called with a given record. *)
Definition isOnClose (client : ClientRef) (e : Effect) : bool :=
  match e with
  | OnClose c => bool_decide (c = client)
  | _ => false
  end.

Definition onCloseCalls (client : ClientRef) (es : list Effect) : nat :=
  length (List.filter (isOnClose client) es).

(** ** The life of a sweeper *)

(** What can happen to a sweeper once it is constructed: [start()] and
    [stop()] are called from outside, the event loop runs its timer
    phase, and the rest of the program acts on the world. *)
Inductive SweeperOp : Type :=
| OpStart (now : Z)
| OpStop
| OpTimerPhase (closeRaises : Transport → option Error) (now tEnd : Z)
| OpActivity (f : World → World).

Definition sweeperStep (st : CheckBrokenConnections.t * Timers * World)
    (op : SweeperOp) : CheckBrokenConnections.t * Timers * World :=
  let '(sw, w) := st in
  match op with
  | OpStart now => (CheckBrokenConnections.start now sw, w)
  | OpStop => (CheckBrokenConnections.stop sw, w)
  | OpTimerPhase closeRaises now tEnd =>
      let '(_, sw', w') := CheckBrokenConnections.fire closeRaises now tEnd sw w in
      (sw', w')
  | OpActivity f => (sw, f w)
  end.

Definition sweeperRun (st : CheckBrokenConnections.t * Timers * World)
    (ops : list SweeperOp) : CheckBrokenConnections.t * Timers * World :=
  foldl sweeperStep st ops.

(** At most one timer is pending, and it is the one the sweeper holds. *)
Definition one_timer (sw : CheckBrokenConnections.t * Timers) : Prop :=
  pending sw.2 = []
  ∨ ∃ i due, pending sw.2 = [(i, due)]
             ∧ CheckBrokenConnections.timeoutId sw.1 = Some i.

(** The world of an instance after a run if timer phases did nothing. *)
Definition activities (evs : list InstanceEvent) (w : World) : World :=
  foldl (λ w ev, match ev with Activity f => f w | TimerPhase _ _ _ => w end) w evs.

(** What the ["message"] listener works on: the frame itself, or what
    [JSON.parse] makes of it when it is a string. *)
Definition decodeFrame (JSON_parse : string → Error + JValue) (data : JValue)
  : Error + JValue :=
  match data with
  | JString text => JSON_parse text
  | _ => inr data
  end.

(** The [src] a message carries. *)
Definition srcOf (message : JValue) : option JValue :=
  match message with
  | JObject _ props => getProp "src" props
  | _ => None
  end.

(** The effects of rejecting a handshake with an [ERROR] message. *)
Definition rejection (socket : SocketIOServer.IOSocket) (msg : Errors) : list Effect :=
  [SocketEmit (SocketIOServer.handle socket) (mkOutgoing ERROR (Some (ErrorsText msg)));
   SocketDisconnect (SocketIOServer.handle socket)].

(** The handshake rule read with the id taken from the handshake
    parameters, like the token and the key. *)
Definition handshake_parameters_rule : Prop :=
  ∀ config socket now w,
    SocketIOServer.handshake_query socket !! "id" = None
    ∨ SocketIOServer.handshake_query socket !! "token" = None
    ∨ SocketIOServer.handshake_query socket !! "key" = None →
    let w' := SocketIOServer._onSocketConnection config socket now w in
    trace w' = trace w ++ rejection socket INVALID_WS_PARAMETERS
    ∧ realm w' = realm w.

(** ** Histories of a gateway *)

(** The transport delivers a connection once per socket object, and a
    disconnect at most once per connected socket. *)
Fixpoint orderly (seen gone : list Transport)
    (evs : list SocketIOServer.TransportEvent) : Prop :=
  match evs with
  | [] => True
  | SocketIOServer.Connection socket _ :: evs =>
      (SocketIOServer.handle socket ∉ seen)
      ∧ orderly (SocketIOServer.handle socket :: seen) gone evs
  | SocketIOServer.Disconnect socket :: evs =>
      (socket ∈ seen) ∧ (socket ∉ gone) ∧ orderly seen (socket :: gone) evs
  | SocketIOServer.Message _ _ :: evs => orderly seen gone evs
  end.

(** The sockets that have disconnected in the course of a history. *)
Fixpoint disconnected (evs : list SocketIOServer.TransportEvent) : list Transport :=
  match evs with
  | [] => []
  | SocketIOServer.Disconnect socket :: evs => socket :: disconnected evs
  | _ :: evs => disconnected evs
  end.

(** What holds of a gateway's world along an orderly history: listeners
    sit on sockets that have connected; a record that holds the handle
    of a live listener is the record registered under its id; registered
    records and records of listeners are allocated, and registered
    records carry the id they are registered under. *)
Definition gateway_inv (seen gone : list Transport) (w : World) : Prop :=
  (∀ s c, (s, c) ∈ listeners w → s ∈ seen ∧ (c < nextRef w)%nat)
  ∧ (∀ s c, (s, c) ∈ listeners w → s ∉ gone →
            getSocket (heap w c) = Some s →
            Realm.getClientById (realm w) (getId (heap w c)) = Some c)
  ∧ (∀ id c, Realm.getClientById (realm w) id = Some c →
             (c < nextRef w)%nat ∧ getId (heap w c) = id).

(** ** A gateway that admits one identity *)

Definition ex_gateway_config : IConfig := mkConfig "socketio" "peerjs" 1 5000.

Definition ex_query (token : string) : gmap string string :=
  <["token" := token]> (<["key" := "peerjs"]> ∅).

(** A first connection; its handshake carries a token and a key and no
    [id] parameter. *)
Definition ex_socket_a : SocketIOServer.IOSocket :=
  SocketIOServer.mkSocket 1 "sidA" (ex_query "t1").
(** A connection whose handshake has no token. *)
Definition ex_socket_no_token : SocketIOServer.IOSocket :=
  SocketIOServer.mkSocket 2 "sidB" (<["key" := "peerjs"]> ∅).
(** A connection with another id. *)
Definition ex_socket_b : SocketIOServer.IOSocket :=
  SocketIOServer.mkSocket 3 "sidB" (ex_query "t2").
(** Connections with the id of the first: its token, and another one. *)
Definition ex_socket_a_again : SocketIOServer.IOSocket :=
  SocketIOServer.mkSocket 4 "sidA" (ex_query "t1").
Definition ex_socket_a_intruder : SocketIOServer.IOSocket :=
  SocketIOServer.mkSocket 5 "sidA" (ex_query "t2").

(** A [JSON.parse] that accepts nothing. *)
Definition ex_parse (text : string) : Error + JValue := inl "SyntaxError".

(** The world once the first connection is admitted. *)
Definition ex_connected : World :=
  SocketIOServer._onSocketConnection ex_gateway_config ex_socket_a 0 emptyWorld.

(** ** A peer that names a registered id in its handshake *)

(** Connections of their own ([socket.id] ["sidB"]) whose handshakes
    name the registered id ["sidA"] in an [id] parameter: one with the
    token stored for ["sidA"], one with another token. *)
Definition ex_socket_presenting_a : SocketIOServer.IOSocket :=
  SocketIOServer.mkSocket 6 "sidB" (<["id" := "sidA"]> (ex_query "t1")).
Definition ex_socket_presenting_a_wrong : SocketIOServer.IOSocket :=
  SocketIOServer.mkSocket 7 "sidB" (<["id" := "sidA"]> (ex_query "t2")).

(** A gateway with room for five identities. *)
Definition ex_roomy_config : IConfig := mkConfig "socketio" "peerjs" 5 5000.

(** The reconnection rule read with the id a handshake presents taken
    from its [id] parameter: the new handle goes into the record
    registered under that id, and no record is added. *)
Definition reconnect_by_presented_id : Prop :=
  ∀ config socket now w id token client,
    SocketIOServer.socket_id socket ≠ "" →
    SocketIOServer.handshake_query socket !! "id" = Some id →
    SocketIOServer.handshake_query socket !! "token" = Some token → token ≠ "" →
    SocketIOServer.handshake_query socket !! "key" = Some (key config) →
    key config ≠ "" →
    Realm.getClientById (realm w) id = Some client →
    getToken (heap w client) = token →
    let w' := SocketIOServer._onSocketConnection config socket now w in
    getSocket (heap w' client) = Some (SocketIOServer.handle socket)
    ∧ Realm.count (realm w') = Realm.count (realm w).

(** The collision rule read in the same way: a registered id presented
    with another token than the stored one is answered with ID-TAKEN,
    and the registry stays as it is. *)
Definition id_taken_by_presented_id : Prop :=
  ∀ config socket now w id token client,
    SocketIOServer.socket_id socket ≠ "" →
    SocketIOServer.handshake_query socket !! "id" = Some id →
    SocketIOServer.handshake_query socket !! "token" = Some token → token ≠ "" →
    SocketIOServer.handshake_query socket !! "key" = Some (key config) →
    key config ≠ "" →
    Realm.getClientById (realm w) id = Some client →
    getToken (heap w client) ≠ token →
    let w' := SocketIOServer._onSocketConnection config socket now w in
    trace w' = trace w ++
      [SocketEmit (SocketIOServer.handle socket)
         (mkOutgoing ID_TAKEN (Some (Text "ID is taken")));
       SocketDisconnect (SocketIOServer.handle socket)]
    ∧ realm w' = realm w.

(** ** A pass that meets a failing close *)

(** Two stale records, ["a"] first; closing the socket of ["a"] raises. *)
Definition ex_config : IConfig := mkConfig "websocket" "peerjs" 10 5000.

Definition ex_sweeper : CheckBrokenConnections.t :=
  CheckBrokenConnections.new ex_config None
    (Some (λ client, [AppEmit "disconnect" client])).

Definition ex_world : World :=
  mkWorld
    (<[1%nat := mkClient "b" "tb" (Some (WebSocket 11)) 0]>
       (<[0%nat := mkClient "a" "ta" (Some (WebSocket 10)) 0]>
          (heap emptyWorld)))
    2
    (Realm.mk [("a", 0%nat); ("b", 1%nat)] [("a", [JNull]); ("b", [JNull])])
    []
    [].

Definition ex_raises (s : Transport) : option Error :=
  if decide (s = WebSocket 10) then Some "close failed" else None.

Definition ex_quiet (s : Transport) : option Error := None.

(** The two statements about a pass read without the proviso that the
    pass gets as far as the id in question. *)
Definition close_failures_swallowed : Prop :=
  ∀ closeRaises self now w,
    let '(r, w') := CheckBrokenConnections.checkConnections closeRaises self now w in
    r = Normal tt
    ∧ ∀ i c, i ∈ Realm.getClientsIds (realm w) →
             Realm.getClientById (realm w) i = Some c →
             stale self now (heap w c) = true →
             Realm.getClientById (realm w') i = None.

Definition every_stale_id_evicted : Prop :=
  ∀ closeRaises self now w i c,
    registry_consistent w →
    i ∈ Realm.getClientsIds (realm w) →
    Realm.getClientById (realm w) i = Some c →
    stale self now (heap w c) = true →
    let w' := (CheckBrokenConnections.checkConnections closeRaises self now w).2 in
    (∀ e, e ∈ closeEffect (getSocket (heap w c)) → e ∈ trace w')
    ∧ Realm.getMessageQueueById (realm w') i = None
    ∧ Realm.getClientById (realm w') i = None
    ∧ onCloseCalls c (trace w') =
      (onCloseCalls c (trace w) + callsPerEviction self)%nat.

(** ** Further vocabulary *)

(** [WS_PATH], and the [path] the constructor of [SocketIOServer]
    computes from the configured one:
    [`${path}${path.endsWith("/") ? "" : "/"}${WS_PATH}`]. *)
Definition WS_PATH : string := "peerjs".

(** [s.endsWith(t)]: [t] is [s] or ends a tail of [s]. *)
Fixpoint endsWith (s t : string) : bool :=
  if String.eqb s t then true
  else match s with
       | EmptyString => false
       | String _ s' => endsWith s' t
       end.

Definition socketServerPath (path : string) : string :=
  (path ++ (if endsWith path "/" then "" else "/") ++ WS_PATH)%string.

(** What a sweep keeps of the store and of the listeners: nothing is
    allocated, no listener comes or goes, ids, tokens and timestamps
    stay, and a handle is only ever taken out of a record. *)
Definition sweep_keeps (w w' : World) : Prop :=
  nextRef w' = nextRef w
  ∧ listeners w' = listeners w
  ∧ (∀ c, getId (heap w' c) = getId (heap w c)
          ∧ getToken (heap w' c) = getToken (heap w c)
          ∧ getLastPing (heap w' c) = getLastPing (heap w c))
  ∧ (∀ c s, getSocket (heap w' c) = Some s → getSocket (heap w c) = Some s).

(** The registry a pass leaves when it returns: the records that were
    fresh. *)
Definition freshOnly (self : CheckBrokenConnections.t) (now : Z) (w : World)
    (i : string) : option ClientRef :=
  match Realm.getClientById (realm w) i with
  | Some c => if stale self now (heap w c) then None else Some c
  | None => None
  end.


(** The world after a run of a sweeper's life in which no pass ran. *)
Definition sweeperActivities (ops : list SweeperOp) (w : World) : World :=
  foldl (λ w op, match op with OpActivity f => f w | _ => w end) w ops.

Definition isStart (op : SweeperOp) : bool :=
  match op with
  | OpStart _ => true
  | _ => false
  end.

(** Histories in which every connection event brings a socket object
    that has not been seen before. *)
Fixpoint fresh_sockets (seen : list Transport)
    (evs : list SocketIOServer.TransportEvent) : Prop :=
  match evs with
  | [] => True
  | SocketIOServer.Connection socket _ :: evs =>
      (SocketIOServer.handle socket ∉ seen)
      ∧ fresh_sockets (SocketIOServer.handle socket :: seen) evs
  | _ :: evs => fresh_sockets seen evs
  end.

(** The events the ["message"] listener of a record can emit. *)
Definition isFrameEvent (e : Effect) : Prop :=
  (∃ c m, e = Emit (EvMessage c m)) ∨ (∃ err, e = Emit (EvError err)).

(** What holds of the registry and the store along every history of a
    gateway: ids are registered once; a registered record is allocated,
    carries the id it is registered under and holds a handle; the
    records of listeners are allocated; and the [src] of every message
    emitted is the id of the record it was emitted for. *)
Definition registry_inv (w : World) : Prop :=
  NoDup (Realm.getClientsIds (realm w))
  ∧ (∀ id c, Realm.getClientById (realm w) id = Some c →
             (c < nextRef w)%nat ∧ getId (heap w c) = id
             ∧ is_Some (getSocket (heap w c)))
  ∧ (∀ s c, (s, c) ∈ listeners w → (c < nextRef w)%nat)
  ∧ (∀ c m, Emit (EvMessage c m) ∈ trace w →
            (c < nextRef w)%nat ∧ srcOf m = Some (JString (getId (heap w c)))).

(** Handles are not shared: an allocated record holds a handle that
    has connected, and two allocated records never hold the same one. *)
Definition handles_inv (seen : list Transport) (w : World) : Prop :=
  (∀ c s, (c < nextRef w)%nat → getSocket (heap w c) = Some s → s ∈ seen)
  ∧ (∀ c1 c2 s, (c1 < nextRef w)%nat → (c2 < nextRef w)%nat →
                getSocket (heap w c1) = Some s → getSocket (heap w c2) = Some s →
                c1 = c2).

(** * Properties *)

(** ** Tables *)

Section Assoc.
Context {A : Type}.
Implicit Types (k : string) (l : list (string * A)).

Lemma assoc_del_eq k l : assoc k (assoc_del k l) = None.
Proof. induction l as [|[k' v] l IH]; simpl; [done|]. repeat case_decide; simpl; try case_decide; done. Qed.

Lemma assoc_del_ne k k' l : k ≠ k' → assoc k' (assoc_del k l) = assoc k' l.
Proof.
  intros Hne. induction l as [|[k'' v] l IH]; simpl; [done|].
  repeat (case_decide; simpl); simplify_eq; done.
Qed.

Lemma assoc_set_eq k x l : assoc k (assoc_set k x l) = Some x.
Proof. induction l as [|[k' v] l IH]; simpl; repeat (case_decide; simpl); done. Qed.

Lemma assoc_set_ne k k' x l : k ≠ k' → assoc k' (assoc_set k x l) = assoc k' l.
Proof.
  intros Hne. induction l as [|[k'' v] l IH]; simpl;
    repeat (case_decide; simpl); simplify_eq; done.
Qed.

Lemma assoc_del_length k l : (length (assoc_del k l) ≤ length l)%nat.
Proof. induction l as [|[k' v] l IH]; simpl; [done|]. case_decide; simpl; lia. Qed.

Lemma assoc_set_fresh_length k x l :
  assoc k l = None → length (assoc_set k x l) = S (length l).
Proof.
  induction l as [|[k' v] l IH]; simpl; [done|].
  case_decide; simpl; [done|]. intros H'. by rewrite IH.
Qed.

Lemma assoc_del_Some k k' x l : assoc k' (assoc_del k l) = Some x → assoc k' l = Some x.
Proof.
  destruct (decide (k = k')) as [->|Hne].
  - by rewrite assoc_del_eq.
  - by rewrite assoc_del_ne.
Qed.

Lemma assoc_Some_elem k x l : assoc k l = Some x → (k, x) ∈ l.
Proof.
  induction l as [|[k' v] l IH]; simpl; [done|].
  case_decide; intros; simplify_eq; [left | right; auto].
Qed.

Lemma assoc_del_Forall (P : string * A → Prop) k l :
  Forall P l → Forall P (assoc_del k l).
Proof.
  induction 1 as [|[k' v] l HP Hl IH]; simpl; [done|].
  case_decide; [done | by constructor].
Qed.

End Assoc.

(** ** The sweeper: one id of the snapshot *)

Section Sweeper.

Import CheckBrokenConnections.

Variable closeRaises : Transport → option Error.
Variable self : CheckBrokenConnections.t.
Variable now : Z.

Lemma closeSocket_eq socket w :
  closeSocket closeRaises socket w =
  (closeOutcome closeRaises socket, performAll (closeEffect socket) w).
Proof.
  unfold closeOutcome, performAll.
  destruct socket as [[o|o]|]; simpl.
  - unfold mbind, M_bind, modify, perform; simpl.
    destruct (closeRaises (WebSocket o)); done.
  - unfold mbind, M_bind, modify, perform; simpl.
    destruct (closeRaises (Socket o)); done.
  - unfold mret, M_ret. destruct w; simpl. by rewrite app_nil_r.
Qed.

Lemma cleanup_eq i c w :
  cleanup self i c w =
  (Normal tt,
   mkWorld (<[c := setSocket None (heap w c)]> (heap w)) (nextRef w)
     (Realm.removeClientById i (Realm.clearMessageQueue i (realm w)))
     (listeners w) (trace w ++ callbackEffects self c)).
Proof.
  unfold cleanup, callOnClose, callbackEffects, mbind, M_bind, modify.
  destruct (onClose self); simpl.
  - unfold performAll; simpl. by rewrite <- app_assoc.
  - unfold mret, M_ret; simpl. by rewrite app_nil_r.
Qed.

Lemma checkOne_eq i w :
  checkOne closeRaises self now i w =
  match Realm.getClientById (realm w) i with
  | None => (Normal tt, w)
  | Some c =>
      if stale self now (heap w c)
      then (closeOutcome closeRaises (getSocket (heap w c)), evict self i c w)
      else (Normal tt, w)
  end.
Proof.
  unfold checkOne, stale, mbind, M_bind, gets; simpl.
  destruct (Realm.getClientById (realm w) i) as [c|]; [|done].
  destruct (now - getLastPing (heap w c) <? alive_timeout (config self))%Z;
    simpl; [done|].
  unfold tryFinally. rewrite closeSocket_eq, cleanup_eq; simpl.
  unfold evict. by rewrite <- app_assoc.
Qed.

End Sweeper.

(** ** The sweeper: a pass *)

Lemma forOf_cons {A} (x : A) xs body w :
  forOf (x :: xs) body w =
  match body x w with
  | (Normal _, w1) => forOf xs body w1
  | (Throw e, w1) => (Throw e, w1)
  end.
Proof. reflexivity. Qed.

Lemma forOf_app {A} (xs ys : list A) body w :
  forOf (xs ++ ys) body w =
  match forOf xs body w with
  | (Normal _, w1) => forOf ys body w1
  | (Throw e, w1) => (Throw e, w1)
  end.
Proof.
  revert w. induction xs as [|x xs IH]; intros w; [done|].
  rewrite <- app_comm_cons, !forOf_cons.
  destruct (body x w) as [[[]|e] w1]; [apply IH | done].
Qed.

Lemma onCloseCalls_app c es1 es2 :
  onCloseCalls c (es1 ++ es2) = (onCloseCalls c es1 + onCloseCalls c es2)%nat.
Proof. unfold onCloseCalls. by rewrite List.filter_app, length_app. Qed.

Lemma onCloseCalls_closeEffect c socket : onCloseCalls c (closeEffect socket) = 0%nat.
Proof. by destruct socket as [[o|o]|]. Qed.

Lemma onCloseCalls_App c (l : list AppEvent) : onCloseCalls c (App <$> l) = 0%nat.
Proof. induction l; [done|]. simpl. apply IHl. Qed.

Lemma onCloseCalls_callback self c c' :
  onCloseCalls c (callbackEffects self c') =
  match CheckBrokenConnections.onClose self with
  | Some _ => if decide (c' = c) then 1%nat else 0%nat
  | None => 0%nat
  end.
Proof.
  unfold callbackEffects. destruct (CheckBrokenConnections.onClose self); [|done].
  unfold onCloseCalls; simpl.
  pose proof (onCloseCalls_App c (l c')) as HA. unfold onCloseCalls in HA.
  unfold bool_decide. destruct (decide_rel eq c' c); case_decide; simpl; try done; by rewrite HA.
Qed.

Lemma sweeps_to_refl w : sweeps_to w w.
Proof.
  repeat split; auto. exists []. by rewrite app_nil_r.
Qed.

Lemma sweeps_to_trans w1 w2 w3 : sweeps_to w1 w2 → sweeps_to w2 w3 → sweeps_to w1 w3.
Proof.
  intros (A1 & A2 & A3 & A4 & A5 & es1 & A6) (B1 & B2 & B3 & B4 & B5 & es2 & B6).
  repeat split; auto.
  - intros c. by rewrite B4.
  - lia.
  - exists (es1 ++ es2). by rewrite B6, A6, app_assoc.
Qed.

Lemma assoc_del_None {A} k k' (l : list (string * A)) :
  assoc k' l = None → assoc k' (assoc_del k l) = None.
Proof.
  intros H. destruct (assoc k' (assoc_del k l)) eqn:E; [|done].
  apply assoc_del_Some in E. congruence.
Qed.

Lemma sweeps_to_evict self i c w : sweeps_to w (evict self i c w).
Proof.
  repeat split.
  - unfold registry_consistent, evict; simpl. intros Hc.
    apply assoc_del_Forall. eapply Forall_impl; [exact Hc|].
    intros [k x] Hk; simpl in *.
    destruct (decide (c = x)) as [->|Hne].
    + by rewrite fn_lookup_insert.
    + by rewrite fn_lookup_insert_ne.
  - unfold evict, Realm.getClientById; simpl. intros k x. apply assoc_del_Some.
  - unfold evict, Realm.getMessageQueueById; simpl. intros k Hk.
    by do 2 apply assoc_del_None.
  - intros c'. unfold evict; simpl.
    destruct (decide (c = c')) as [->|Hne].
    + by rewrite fn_lookup_insert.
    + by rewrite fn_lookup_insert_ne.
  - unfold evict, Realm.count, Realm.getClientsIds; simpl.
    rewrite !length_fmap. apply assoc_del_length.
  - unfold evict; simpl. eauto.
Qed.

(** An evicted record is registered under no id afterwards. *)
Lemma evict_unregistered self i c w k :
  registry_consistent w →
  Realm.getClientById (realm w) i = Some c →
  Realm.getClientById (realm (evict self i c w)) k ≠ Some c.
Proof.
  intros Hc Hi Hk. unfold evict, Realm.getClientById in Hk; simpl in Hk.
  pose proof (assoc_del_Some _ _ _ _ Hk) as Hk0.
  assert (k = i) as ->.
  { apply assoc_Some_elem in Hk0, Hi.
    unfold registry_consistent in Hc. rewrite Forall_forall in Hc.
    pose proof (Hc _ Hk0) as E1. pose proof (Hc _ Hi) as E2. simpl in *. congruence. }
  by rewrite assoc_del_eq in Hk.
Qed.

Lemma evict_lookup self i c w :
  Realm.getClientById (realm (evict self i c w)) i = None
  ∧ Realm.getMessageQueueById (realm (evict self i c w)) i = None
  ∧ getSocket (heap (evict self i c w) c) = None
  ∧ (∀ k, k ≠ i → Realm.getClientById (realm (evict self i c w)) k
                  = Realm.getClientById (realm w) k)
  ∧ (∀ c', c' ≠ c → heap (evict self i c w) c' = heap w c').
Proof.
  unfold evict, Realm.getClientById, Realm.getMessageQueueById; simpl.
  rewrite !assoc_del_eq, fn_lookup_insert. repeat split; [|].
  - intros k Hk. by apply assoc_del_ne.
  - intros c' Hc'. by apply fn_lookup_insert_ne.
Qed.

Lemma onCloseCalls_evict self i c w c' :
  onCloseCalls c' (trace (evict self i c w)) =
  (onCloseCalls c' (trace w) +
   match CheckBrokenConnections.onClose self with
   | Some _ => if decide (c = c') then 1 else 0
   | None => 0
   end)%nat.
Proof.
  unfold evict; simpl.
  by rewrite !onCloseCalls_app, onCloseCalls_closeEffect, onCloseCalls_callback.
Qed.

Section SweeperPass.

Import CheckBrokenConnections.

Variable closeRaises : Transport → option Error.
Variable self : CheckBrokenConnections.t.
Variable now : Z.

Local Abbreviation step := (checkOne closeRaises self now).

Lemma checkOne_cases i w :
  step i w = (Normal tt, w)
  ∨ ∃ c, Realm.getClientById (realm w) i = Some c
         ∧ stale self now (heap w c) = true
         ∧ step i w = (closeOutcome closeRaises (getSocket (heap w c)),
                       evict self i c w).
Proof.
  rewrite checkOne_eq.
  destruct (Realm.getClientById (realm w) i) as [c|] eqn:Hi; [|by left].
  destruct (stale self now (heap w c)) eqn:Hs; [right; eauto | by left].
Qed.

Lemma checkOne_sweeps i w : sweeps_to w (step i w).2.
Proof.
  destruct (checkOne_cases i w) as [->|(c & _ & _ & ->)]; cbn [snd].
  - apply sweeps_to_refl.
  - apply sweeps_to_evict.
Qed.

Lemma pass_sweeps ids w : sweeps_to w (forOf ids step w).2.
Proof.
  revert w. induction ids as [|i ids IH]; intros w.
  - apply sweeps_to_refl.
  - rewrite forOf_cons. pose proof (checkOne_sweeps i w) as Hs.
    destruct (step i w) as [[[]|e] w1]; simpl in *; [|done].
    eapply sweeps_to_trans; [exact Hs | apply IH].
Qed.

(** A record that is still registered after part of a pass was not
    handed to the callback during that part. *)
Lemma pass_registered_not_called ids w i c :
  registry_consistent w →
  Realm.getClientById (realm (forOf ids step w).2) i = Some c →
  onCloseCalls c (trace (forOf ids step w).2) = onCloseCalls c (trace w).
Proof.
  revert w. induction ids as [|j ids IH]; intros w Hc; [done|].
  rewrite forOf_cons.
  pose proof (checkOne_sweeps j w) as Hsw.
  assert (∀ w1, w1 = (step j w).2 →
                Realm.getClientById (realm w1) i = Some c →
                onCloseCalls c (trace w1) = onCloseCalls c (trace w)) as Hstep.
  { intros w1 -> Hi.
    destruct (checkOne_cases j w) as [Hs|(c' & Hj & _ & Hs)]; rewrite Hs in *; cbn [snd] in *; [done|].
    rewrite onCloseCalls_evict. destruct (onClose self); [|lia].
    case_decide as Hcc; [subst c'|lia].
    by destruct (evict_unregistered self j c w i). }
  destruct (step j w) as [[[]|e] w1]; simpl in *.
  - intros Hi. rewrite IH; [|by apply Hsw|done].
    apply Hstep; [done|]. by apply (pass_sweeps ids w1).
  - by apply Hstep.
Qed.

(** A record registered under no id is not handed to the callback. *)
Lemma pass_unregistered_not_called ids w c :
  (∀ k, Realm.getClientById (realm w) k ≠ Some c) →
  onCloseCalls c (trace (forOf ids step w).2) = onCloseCalls c (trace w).
Proof.
  revert w. induction ids as [|j ids IH]; intros w Hc; [done|].
  rewrite forOf_cons.
  assert (onCloseCalls c (trace (step j w).2) = onCloseCalls c (trace w)) as Hstep.
  { destruct (checkOne_cases j w) as [Hs|(c' & Hj & _ & Hs)]; rewrite Hs in *; cbn [snd] in *; [done|].
    rewrite onCloseCalls_evict. destruct (onClose self); [|lia].
    case_decide as Hcc; [subst c'|lia]. by destruct (Hc j). }
  pose proof (checkOne_sweeps j w) as (_ & Hsh & _).
  destruct (step j w) as [[[]|e] w1]; simpl in *; [|done].
  rewrite IH; [done|]. intros k Hk. by apply (Hc k), Hsh.
Qed.

Lemma pass_absent ids w i :
  Realm.getClientById (realm w) i = None →
  Realm.getClientById (realm (forOf ids step w).2) i = None.
Proof.
  intros Hi. pose proof (pass_sweeps ids w) as (_ & Hsh & _).
  destruct (Realm.getClientById (realm (forOf ids step w).2) i) eqn:E; [|done].
  apply Hsh in E. congruence.
Qed.

End SweeperPass.

(** ** The sweeper: failures of [close] *)

Lemma checkConnections_eq closeRaises self now w :
  CheckBrokenConnections.checkConnections closeRaises self now w =
  forOf (Realm.getClientsIds (realm w))
        (CheckBrokenConnections.checkOne closeRaises self now) w.
Proof. reflexivity. Qed.

(** C1 (as amended).  When closing the transport of a stale identity
    raises, the queue of that identity is still cleared, its record is
    still removed and the close callback is still called for it; the
    error is not swallowed: the pass ends with it, and the ids that
    follow in the snapshot are left as they were. *)
Theorem close_failure_cleans_up_and_ends_pass closeRaises self now w pre i post w1 c s e :
  Realm.getClientsIds (realm w) = pre ++ i :: post →
  forOf pre (CheckBrokenConnections.checkOne closeRaises self now) w = (Normal tt, w1) →
  Realm.getClientById (realm w1) i = Some c →
  stale self now (heap w1 c) = true →
  getSocket (heap w1 c) = Some s →
  closeRaises s = Some e →
  let w' := evict self i c w1 in
  CheckBrokenConnections.checkConnections closeRaises self now w = (Throw e, w')
  ∧ Realm.getMessageQueueById (realm w') i = None
  ∧ Realm.getClientById (realm w') i = None
  ∧ getSocket (heap w' c) = None
  ∧ trace w' = trace w1 ++ closeEffect (Some s) ++ callbackEffects self c
  ∧ (∀ k, k ≠ i → Realm.getClientById (realm w') k = Realm.getClientById (realm w1) k)
  ∧ (∀ c', c' ≠ c → heap w' c' = heap w1 c').
Proof.
  intros Hids Hpre Hi Hstale Hsock Hraise w'.
  destruct (evict_lookup self i c w1) as (E1 & E2 & E3 & E4 & E5).
  repeat split; try done.
  - rewrite checkConnections_eq, Hids, forOf_app, Hpre, forOf_cons, checkOne_eq.
    rewrite Hi, Hstale. unfold closeOutcome. rewrite Hsock; simpl. by rewrite Hraise.
  - subst w'. unfold evict; simpl. by rewrite Hsock.
Qed.

Lemma close_failure_cleans_up_and_ends_pass_witness :
  CheckBrokenConnections.checkConnections ex_raises ex_sweeper 10000 ex_world
  = (Throw "close failed", evict ex_sweeper "a" 0 ex_world).
Proof.
  refine (proj1 (close_failure_cleans_up_and_ends_pass
                   ex_raises ex_sweeper 10000 ex_world [] "a" ["b"] ex_world 0
                   (WebSocket 10) "close failed" _ _ _ _ _ _)); reflexivity.
Defined.

(** C1 as stated fails: with two stale records and a first close that
    raises, the pass ends with the error; the second record is still
    registered, its socket was not closed and the callback was not
    called for it. *)
Lemma close_failure_not_swallowed :
  (let '(r, w') :=
     CheckBrokenConnections.checkConnections ex_raises ex_sweeper 10000 ex_world in
   r = Throw "close failed"
   ∧ Realm.getClientById (realm w') "b" = Some 1%nat
   ∧ getSocket (heap w' 1%nat) = Some (WebSocket 11)
   ∧ trace w' = [SocketClose (WebSocket 10); OnClose 0; App (AppEmit "disconnect" 0)])
  ∧ ¬ close_failures_swallowed.
Proof.
  split; [vm_compute; done|].
  intros H. specialize (H ex_raises ex_sweeper 10000%Z ex_world).
  vm_compute in H. by destruct H as [[=] _].
Qed.

(** ** The sweeper: what a pass does with each id *)

(** C8 (as amended).  For every id of the snapshot that the pass gets
    to (no close raised before it): if the record is absent the id is
    skipped; if [now - lastSeen] is below [alive_timeout] the world is
    left as it is; otherwise the handle, when present, is closed, the
    queue is cleared, the record is removed, and over the whole pass the
    close callback is called exactly once with that record. *)
Theorem checkConnections_reached closeRaises self now w pre i post w1 :
  registry_consistent w →
  Realm.getClientsIds (realm w) = pre ++ i :: post →
  forOf pre (CheckBrokenConnections.checkOne closeRaises self now) w = (Normal tt, w1) →
  let w' := (CheckBrokenConnections.checkConnections closeRaises self now w).2 in
  match Realm.getClientById (realm w1) i with
  | None => CheckBrokenConnections.checkOne closeRaises self now i w1 = (Normal tt, w1)
  | Some c =>
      if stale self now (heap w1 c) then
        CheckBrokenConnections.checkOne closeRaises self now i w1
        = (closeOutcome closeRaises (getSocket (heap w1 c)), evict self i c w1)
        ∧ (∀ e, e ∈ closeEffect (getSocket (heap w1 c)) → e ∈ trace w')
        ∧ Realm.getMessageQueueById (realm w') i = None
        ∧ Realm.getClientById (realm w') i = None
        ∧ onCloseCalls c (trace w') =
          (onCloseCalls c (trace w) + callsPerEviction self)%nat
      else CheckBrokenConnections.checkOne closeRaises self now i w1 = (Normal tt, w1)
  end.
Proof.
  intros Hc Hids Hpre w'.
  set (step := CheckBrokenConnections.checkOne closeRaises self now) in *.
  pose proof (checkOne_eq closeRaises self now i w1) as Hstep. fold step in Hstep.
  destruct (Realm.getClientById (realm w1) i) as [c|] eqn:Hi; [|done].
  destruct (stale self now (heap w1 c)) eqn:Hstale; [|done].
  split; [done|].
  (* the rest of the pass starts from the world left by the eviction *)
  set (w2 := evict self i c w1) in *.
  assert (∃ w3, w' = (forOf w3 step w2).2) as [rest Hw'].
  { subst w'. rewrite checkConnections_eq, Hids, forOf_app. fold step.
    rewrite Hpre, forOf_cons, Hstep.
    destruct (closeOutcome closeRaises (getSocket (heap w1 c))) as [[]|e].
    - by exists post.
    - by exists []. }
  pose proof (pass_sweeps closeRaises self now rest w2) as (_ & _ & Hq & _ & _ & es & Htr).
  fold step in Hq, Htr. rewrite <- Hw' in Hq, Htr.
  pose proof (pass_sweeps closeRaises self now pre w) as (Hc1 & _). fold step in Hc1.
  rewrite Hpre in Hc1. specialize (Hc1 Hc). cbn [snd] in Hc1.
  destruct (evict_lookup self i c w1) as (E1 & E2 & _).
  repeat split.
  - intros e He. rewrite Htr. subst w2. unfold evict; simpl.
    rewrite !elem_of_app. auto.
  - by apply Hq.
  - rewrite Hw'. by apply pass_absent.
  - rewrite Hw'. fold step. unfold step at 1.
    rewrite pass_unregistered_not_called.
    + subst w2. rewrite onCloseCalls_evict.
      pose proof (pass_registered_not_called closeRaises self now pre w i c Hc) as Hp.
      fold step in Hp. rewrite Hpre in Hp. cbn [snd] in Hp. rewrite (Hp Hi).
      unfold callsPerEviction.
      destruct (CheckBrokenConnections.onClose self); [|done]. by case_decide.
    + intros k. by apply evict_unregistered.
Qed.

Lemma checkConnections_reached_witness :
  let w' := (CheckBrokenConnections.checkConnections ex_quiet ex_sweeper 10000 ex_world).2 in
  Realm.getClientById (realm w') "b" = None
  ∧ onCloseCalls 1 (trace w') = 1%nat.
Proof.
  assert (registry_consistent ex_world) as Hc by (repeat constructor).
  pose proof (checkConnections_reached ex_quiet ex_sweeper 10000 ex_world
                ["a"] "b" [] (evict ex_sweeper "a" 0 ex_world) Hc eq_refl eq_refl) as H.
  vm_compute in H. destruct H as (_ & _ & _ & H1 & H2).
  split; [exact H1 | exact H2].
Defined.

(** C8 as stated fails for an id that comes after a close that raised:
    the record ["b"] is stale and in the snapshot, and after the pass it
    is still registered with its queue, its socket was not closed and
    the callback was not called with it. *)
Lemma stale_id_after_failure_not_evicted :
  (let w' := (CheckBrokenConnections.checkConnections ex_raises ex_sweeper 10000 ex_world).2 in
   "b" ∈ Realm.getClientsIds (realm ex_world)
   ∧ stale ex_sweeper 10000 (heap ex_world 1%nat) = true
   ∧ Realm.getClientById (realm w') "b" = Some 1%nat
   ∧ Realm.getMessageQueueById (realm w') "b" = Some [JNull]
   ∧ onCloseCalls 1 (trace w') = 0%nat)
  ∧ ¬ every_stale_id_evicted.
Proof.
  assert ("b" ∈ Realm.getClientsIds (realm ex_world)) as Hb
    by (apply list_elem_of_lookup; by exists 1%nat).
  split.
  - split; [done|]. vm_compute. done.
  - intros H.
    specialize (H ex_raises ex_sweeper 10000%Z ex_world "b" 1%nat).
    destruct H as (_ & _ & H & _); [repeat constructor|done|done|done|].
    vm_compute in H. done.
Qed.

(** ** The sweeper: scheduling *)

Section Scheduling.

Import CheckBrokenConnections.

Lemma clearTimeout_single i due t :
  pending t = [(i, due)] → pending (clearTimeout i t) = [].
Proof.
  intros H. unfold clearTimeout; simpl. rewrite H, filter_cons; simpl.
  by case_decide.
Qed.

Lemma clearTimeout_none i t : pending t = [] → pending (clearTimeout i t) = [].
Proof. intros H. unfold clearTimeout; simpl. by rewrite H. Qed.

(** [start()] leaves exactly one pending timer, a new one, due
    [checkInterval] after the call. *)
Lemma start_arms now self t :
  one_timer (self, t) →
  start now (self, t) =
  (setTimeoutId (Some (nextTimer t)) self,
   mkTimers (S (nextTimer t)) [(nextTimer t, (now + checkInterval self)%Z)]).
Proof.
  intros [Hp|(i & due & Hp & Hi)]; simpl in *; unfold start, setTimeout.
  - destruct (timeoutId self) as [j|].
    + by rewrite (clearTimeout_none j t Hp).
    + by rewrite Hp.
  - by rewrite Hi, (clearTimeout_single i due t Hp).
Qed.

Lemma stop_disarms self t :
  one_timer (self, t) →
  pending (stop (self, t)).2 = [] ∧ timeoutId (stop (self, t)).1 = None.
Proof.
  intros [Hp|(i & due & Hp & Hi)]; simpl in *; unfold stop.
  - destruct (timeoutId self) as [j|] eqn:Hj; simpl; [|done].
    by rewrite Hp.
  - rewrite Hi; simpl. by rewrite Hp, filter_cons; simpl; case_decide.
Qed.

Lemma fire_eq closeRaises now tEnd self t w :
  one_timer (self, t) →
  fire closeRaises now tEnd (self, t) w =
  match dueTimer now t with
  | None => (Normal tt, (self, t), w)
  | Some _ =>
      match checkConnections closeRaises self now w with
      | (Normal _, w1) =>
          (Normal tt,
           (setTimeoutId (Some (nextTimer t)) self,
            mkTimers (S (nextTimer t))
                     [(nextTimer t, (tEnd + checkInterval self)%Z)]),
           w1)
      | (Throw e, w1) => (Throw e, (self, mkTimers (nextTimer t) []), w1)
      end
  end.
Proof.
  intros Hone. unfold fire.
  destruct (dueTimer now t) as [i|] eqn:Hdue; [|done].
  assert (pending (clearTimeout i t) = []) as Hclr.
  { destruct Hone as [Hp|(j & due & Hp & Hj)]; simpl in *.
    - by apply clearTimeout_none.
    - unfold dueTimer in Hdue. rewrite Hp, filter_cons in Hdue; simpl in Hdue.
      case_decide; simplify_eq/=. by apply (clearTimeout_single _ due). }
  unfold timerCallback.
  destruct (checkConnections closeRaises self now w) as [[[]|e] w1].
  - rewrite start_arms; [|left; exact Hclr]. done.
  - do 2 f_equal. unfold clearTimeout in *; simpl in *. by rewrite Hclr.
Qed.

Lemma one_timer_step st op :
  one_timer st.1 → one_timer (sweeperStep st op).1
  ∧ checkInterval (sweeperStep st op).1.1 = checkInterval st.1.1.
Proof.
  destruct st as [[self t] w]; cbn [fst snd]. intros Hone.
  destruct op as [now| |closeRaises now tEnd|f]; unfold sweeperStep; cbn [fst snd].
  - rewrite start_arms by done. split; [|done]. right; simpl; eauto.
  - destruct (stop_disarms self t Hone) as [Hp _].
    split; [by left|]. unfold stop. by destruct (timeoutId self).
  - rewrite fire_eq by done.
    destruct (dueTimer now t); [|done].
    destruct (checkConnections closeRaises self now w) as [[[]|e] w1]; cbn [fst snd].
    + split; [|done]. right; simpl; eauto.
    + split; [by left|done].
  - done.
Qed.

Lemma one_timer_run ops st :
  one_timer st.1 → one_timer (sweeperRun st ops).1
  ∧ checkInterval (sweeperRun st ops).1.1 = checkInterval st.1.1.
Proof.
  revert st. induction ops as [|op ops IH]; intros st Hone; [done|].
  simpl. destruct (one_timer_step st op Hone) as [H1 H2].
  destruct (IH _ H1) as [H3 H4]. split; [done|]. by rewrite H4.
Qed.

End Scheduling.

(** C10.  In every state a sweeper can be in: its interval is the one
    given to the constructor, 300 by default; at most one timer is
    pending; [start()] cancels the timer it holds and leaves exactly one,
    due [checkInterval] after the call; [stop()] leaves none and drops
    the handle, so that the timer phase then runs no pass; and the timer
    phase runs a pass only when the timer is due, the timer being
    one-shot, and when the pass has returned it arms the only next timer,
    due [checkInterval] after the time [tEnd] at which the pass returned
    (if the pass raises, no timer is armed). *)
Theorem sweeper_schedule config interval onClose w0 ops :
  let '(self, timers, w) :=
    sweeperRun (CheckBrokenConnections.new config interval onClose, noTimers, w0) ops in
  CheckBrokenConnections.DEFAULT_CHECK_INTERVAL = 300%Z
  ∧ CheckBrokenConnections.checkInterval self = default 300%Z interval
  ∧ (length (pending timers) ≤ 1)%nat
  ∧ (∀ now,
       CheckBrokenConnections.start now (self, timers) =
       (CheckBrokenConnections.setTimeoutId (Some (nextTimer timers)) self,
        mkTimers (S (nextTimer timers))
          [(nextTimer timers, (now + CheckBrokenConnections.checkInterval self)%Z)]))
  ∧ (let stopped := CheckBrokenConnections.stop (self, timers) in
     pending stopped.2 = []
     ∧ CheckBrokenConnections.timeoutId stopped.1 = None
     ∧ ∀ closeRaises now tEnd w,
         CheckBrokenConnections.fire closeRaises now tEnd stopped w
         = (Normal tt, stopped, w))
  ∧ (∀ closeRaises now tEnd,
       CheckBrokenConnections.fire closeRaises now tEnd (self, timers) w =
       match dueTimer now timers with
       | None => (Normal tt, (self, timers), w)
       | Some _ =>
           match CheckBrokenConnections.checkConnections closeRaises self now w with
           | (Normal _, w1) =>
               (Normal tt,
                (CheckBrokenConnections.setTimeoutId (Some (nextTimer timers)) self,
                 mkTimers (S (nextTimer timers))
                   [(nextTimer timers,
                     (tEnd + CheckBrokenConnections.checkInterval self)%Z)]),
                w1)
           | (Throw e, w1) => (Throw e, (self, mkTimers (nextTimer timers) []), w1)
           end
       end).
Proof.
  pose proof (one_timer_run ops
                (CheckBrokenConnections.new config interval onClose, noTimers, w0)) as H.
  destruct (sweeperRun _ ops) as [[self timers] w]; simpl in H.
  destruct H as [Hone Hint]; [by left|].
  split; [done|]. split; [done|]. split.
  { destruct Hone as [Hp|(i & due & Hp & _)]; simpl in Hp; rewrite Hp; simpl; lia. }
  split; [intros now; by apply start_arms|].
  split; [|intros; by apply fire_eq].
  destruct (stop_disarms self timers Hone) as [Hp Hid].
  split; [done|]. split; [done|].
  intros closeRaises now tEnd w'.
  destruct (CheckBrokenConnections.stop (self, timers)) as [self' timers'].
  simpl in *. unfold CheckBrokenConnections.fire, dueTimer. by rewrite Hp.
Qed.

(** ** Instance wiring *)

Lemma socketio_instance_step inst ev :
  checkBrokenConnections inst = None →
  pending (timers inst) = [] →
  let inst' := instanceStep inst ev in
  checkBrokenConnections inst' = None
  ∧ pending (timers inst') = []
  ∧ serverInstance inst' = serverInstance inst
  ∧ world inst' = activities [ev] (world inst).
Proof.
  intros Hs Ht. destruct ev as [closeRaises now tEnd|f]; simpl.
  - by rewrite Hs.
  - done.
Qed.

Lemma socketio_instance_run evs inst :
  checkBrokenConnections inst = None →
  pending (timers inst) = [] →
  let inst' := instanceRun inst evs in
  checkBrokenConnections inst' = None
  ∧ pending (timers inst') = []
  ∧ serverInstance inst' = serverInstance inst
  ∧ world inst' = activities evs (world inst).
Proof.
  revert inst. induction evs as [|ev evs IH]; intros inst Hs Ht; [done|].
  destruct (socketio_instance_step inst ev Hs Ht) as (H1 & H2 & H3 & H4).
  destruct (IH _ H1 H2) as (G1 & G2 & G3 & G4). simpl in *.
  rewrite G3, G4, H3, H4. done.
Qed.

(** C3.  With [server_type] equal to ["socketio"], [createInstance]
    makes no sweeper and arms no timer, and this stays so whatever
    happens afterwards: timer phases at any clock time run no pass, so
    that the world is the one the other activities alone produce.  With
    any other [server_type] a sweeper is made, with the default interval
    and a callback that emits ["disconnect"], and it is started: its
    timer is pending, due one interval after the start. *)
Theorem createInstance_sweeper options now evs :
  let inst := createInstance options now in
  if decide (server_type options = "socketio") then
    checkBrokenConnections inst = None
    ∧ pending (timers inst) = []
    ∧ serverInstance inst = SocketIOServerInstance
    ∧ checkBrokenConnections (instanceRun inst evs) = None
    ∧ pending (timers (instanceRun inst evs)) = []
    ∧ world (instanceRun inst evs) = activities evs (world inst)
  else
    ∃ i,
      checkBrokenConnections inst =
        Some (CheckBrokenConnections.mk 300 (Some i) options
                (Some (λ client, [AppEmit "disconnect" client])))
      ∧ pending (timers inst) = [(i, (now + 300)%Z)]
      ∧ dueTimer (now + 300) (timers inst) = Some i
      ∧ serverInstance inst = WebSocketServerInstance.
Proof.
  intros inst. case_decide as Hty.
  - assert (inst = mkInstance None noTimers emptyWorld SocketIOServerInstance) as ->.
    { subst inst. unfold createInstance. by repeat case_decide. }
    split; [done|]. split; [done|]. split; [done|].
    by destruct (socketio_instance_run evs
                   (mkInstance None noTimers emptyWorld SocketIOServerInstance))
      as (G1 & G2 & _ & G4).
  - exists 0%nat. subst inst. unfold createInstance.
    repeat case_decide; try done. simpl.
    unfold dueTimer, CheckBrokenConnections.DEFAULT_CHECK_INTERVAL; simpl.
    rewrite filter_cons; simpl. rewrite decide_True by lia. done.
Qed.

(** ** Folds over listeners *)

Lemma foldl_invariant {A} (P : World → Prop) (f : World → A → World) (l : list A) w :
  (∀ w' x, x ∈ l → P w' → P (f w' x)) → P w → P (foldl f w l).
Proof.
  revert w. induction l as [|x l IH]; intros w Hf Hw; [done|].
  simpl. apply IH.
  - intros w' y Hy. apply Hf. by right.
  - apply Hf; [by left|done].
Qed.

(** ** The gateway: handshake *)

Section Handshake.

Import SocketIOServer.

Lemma trace_sendErrorAndClose socket msg w :
  _sendErrorAndClose socket msg w = performAll (rejection socket msg) w.
Proof.
  unfold _sendErrorAndClose, performAll, perform, rejection; simpl.
  by rewrite <- app_assoc.
Qed.

(** A handshake that passes the parameter and key checks goes on to
    the registry. *)
Lemma _onSocketConnection_checked config socket now w token :
  socket_id socket ≠ "" →
  handshake_query socket !! "token" = Some token → token ≠ "" →
  handshake_query socket !! "key" = Some (key config) → key config ≠ "" →
  _onSocketConnection config socket now w =
  match Realm.getClientById (realm w) (socket_id socket) with
  | Some client =>
      if decide (token = getToken (heap w client))
      then _configureSocket socket client w
      else performAll
             [SocketEmit (handle socket) (mkOutgoing ID_TAKEN (Some (Text "ID is taken")));
              SocketDisconnect (handle socket)] w
  | None => _registerClient config socket (socket_id socket) token now w
  end.
Proof.
  intros Hid Htok Htok' Hkey Hkey'. unfold _onSocketConnection.
  rewrite Htok, Hkey; simpl.
  rewrite !bool_decide_eq_false_2 by done; simpl.
  rewrite bool_decide_eq_false_2 by (by intros []).
  destruct (Realm.getClientById (realm w) (socket_id socket)) as [client|]; [|done].
  case_decide as Ht.
  - rewrite bool_decide_eq_false_2; [done|]. intros []. by rewrite Ht.
  - rewrite bool_decide_eq_true_2 by congruence.
    unfold performAll, perform; simpl. by rewrite <- app_assoc.
Qed.

(** The outcome of a handshake depends on its query through the token
    and the key alone: the id is the connection's own. *)
Lemma _onSocketConnection_query config oid sid query query' now w :
  query' !! "token" = query !! "token" →
  query' !! "key" = query !! "key" →
  _onSocketConnection config (mkSocket oid sid query') now w
  = _onSocketConnection config (mkSocket oid sid query) now w.
Proof.
  intros Ht Hk. unfold _onSocketConnection; cbn [socket_id handshake_query].
  rewrite Ht, Hk. reflexivity.
Qed.

(** C2 (as amended).  For every new connection the gateway takes the
    token and the key from the query of the handshake and the id from
    the connection itself ([socket.id]).  An [id] parameter in the
    handshake is not looked at, whatever becomes of the handshake: two
    handshakes on the same connection that agree on token and key have
    the same outcome.  If any of the three is missing (absent or empty)
    the gateway sends an ERROR message of kind InvalidParameters, closes
    the connection, and creates no registry entry. *)
Theorem missing_parameters_rejected config socket now w :
  (∀ query',
     query' !! "token" = handshake_query socket !! "token" →
     query' !! "key" = handshake_query socket !! "key" →
     _onSocketConnection config
       (mkSocket (socket_oid socket) (socket_id socket) query') now w
     = _onSocketConnection config socket now w)
  ∧ (∀ v, _onSocketConnection config
            (mkSocket (socket_oid socket) (socket_id socket)
               (<["id" := v]> (handshake_query socket))) now w
          = _onSocketConnection config socket now w)
  ∧ (∀ v, _onSocketConnection config
            (mkSocket (socket_oid socket) (socket_id socket)
               (delete "id" (handshake_query socket))) now w
          = _onSocketConnection config
              (mkSocket (socket_oid socket) (socket_id socket)
                 (<["id" := v]> (handshake_query socket))) now w)
  ∧ (socket_id socket = ""
     ∨ falsy (handshake_query socket !! "token") = true
     ∨ falsy (handshake_query socket !! "key") = true →
     let w' := _onSocketConnection config socket now w in
     trace w' = trace w ++ rejection socket INVALID_WS_PARAMETERS
     ∧ realm w' = realm w
     ∧ heap w' = heap w
     ∧ nextRef w' = nextRef w
     ∧ listeners w' = listeners w
     ∧ ∀ v, _onSocketConnection config
              (mkSocket (socket_oid socket) (socket_id socket)
                 (<["id" := v]> (handshake_query socket))) now w = w').
Proof.
  assert (∀ query',
            query' !! "token" = handshake_query socket !! "token" →
            query' !! "key" = handshake_query socket !! "key" →
            _onSocketConnection config
              (mkSocket (socket_oid socket) (socket_id socket) query') now w
            = _onSocketConnection config socket now w) as Hquery.
  { intros query' Ht Hk. destruct socket as [oid sid query].
    by apply _onSocketConnection_query. }
  assert (∀ v, _onSocketConnection config
                 (mkSocket (socket_oid socket) (socket_id socket)
                    (<["id" := v]> (handshake_query socket))) now w
               = _onSocketConnection config socket now w) as Hid.
  { intros v. apply Hquery; by rewrite lookup_insert_ne. }
  split; [exact Hquery|]. split; [exact Hid|]. split.
  { intros v. rewrite Hid. apply Hquery; by rewrite lookup_delete_ne. }
  intros Hmiss w'.
  assert (falsy (Some (socket_id socket))
          || falsy (handshake_query socket !! "token")
          || falsy (handshake_query socket !! "key") = true) as Hb.
  { destruct Hmiss as [->|[->| ->]]; simpl;
      rewrite ?orb_true_r; done. }
  assert (w' = performAll (rejection socket INVALID_WS_PARAMETERS) w) as Hw'.
  { subst w'. unfold _onSocketConnection. rewrite Hb.
    apply trace_sendErrorAndClose. }
  rewrite Hw'. repeat split; try done.
  intros v. by rewrite Hid, <- Hw'.
Qed.

Lemma missing_parameters_rejected_witness :
  let w' := _onSocketConnection ex_gateway_config ex_socket_no_token 0 emptyWorld in
  trace w' = rejection ex_socket_no_token INVALID_WS_PARAMETERS
  ∧ realm w' = Realm.empty
  ∧ _onSocketConnection ex_gateway_config
      (mkSocket 2 "sidB" (<["id" := "sidA"]> (<["key" := "peerjs"]> ∅))) 0 emptyWorld
    = w'.
Proof.
  destruct (missing_parameters_rejected ex_gateway_config ex_socket_no_token 0 emptyWorld)
    as (_ & Hid & _ & Hrej).
  destruct Hrej as (H1 & H2 & _); [right; left; reflexivity|].
  split; [exact H1|]. split; [exact H2|]. exact (Hid "sidA").
Defined.

(** C2 as stated fails: a handshake without an [id] parameter is not
    rejected; the connection is registered under its [socket.id] and
    receives OPEN. *)
Lemma id_not_a_handshake_parameter :
  (handshake_query ex_socket_a !! "id" = None
   ∧ let w' := _onSocketConnection ex_gateway_config ex_socket_a 0 emptyWorld in
     Realm.getClientById (realm w') "sidA" = Some 0%nat
     ∧ trace w' = [SocketEmit (Socket 1) (mkOutgoing OPEN None);
                   Emit (EvConnection 0)])
  ∧ ¬ handshake_parameters_rule.
Proof.
  split; [by vm_compute|].
  intros H.
  destruct (H ex_gateway_config ex_socket_a 0%Z emptyWorld) as [H1 _];
    [by left|].
  vm_compute in H1. done.
Qed.

(** ** The gateway: admission *)

Lemma count_setClient_fresh c id r :
  Realm.getClientById r id = None →
  Realm.count (Realm.setClient c id r) = S (Realm.count r).
Proof.
  unfold Realm.count, Realm.getClientsIds, Realm.setClient, Realm.getClientById; simpl.
  intros H. by rewrite !length_fmap, assoc_set_fresh_length.
Qed.

Lemma count_removeClientById id r :
  (Realm.count (Realm.removeClientById id r) ≤ Realm.count r)%nat.
Proof.
  unfold Realm.count, Realm.getClientsIds, Realm.removeClientById; simpl.
  rewrite !length_fmap. apply assoc_del_length.
Qed.

Lemma _registerClient_eq config socket id token now w :
  let w' := _registerClient config socket id token now w in
  if (Z.of_nat (Realm.count (realm w)) <? concurrent_limit config)%Z then
    (∀ c, heap w' c =
          (<[nextRef w := mkClient id token (Some (handle socket)) now]> (heap w)) c)
    ∧ nextRef w' = S (nextRef w)
    ∧ realm w' = Realm.setClient (nextRef w) id (realm w)
    ∧ listeners w' = listeners w ++ [(handle socket, nextRef w)]
    ∧ trace w' = trace w ++ [SocketEmit (handle socket) (mkOutgoing OPEN None);
                             Emit (EvConnection (nextRef w))]
  else w' = performAll (rejection socket CONNECTION_LIMIT_EXCEED) w.
Proof.
  unfold _registerClient. fold (Realm.count (realm w)).
  rewrite (Z.ltb_antisym (concurrent_limit config)).
  destruct (concurrent_limit config <=? Z.of_nat (Realm.count (realm w)))%Z; simpl.
  - apply trace_sendErrorAndClose.
  - rewrite <- app_assoc. repeat split; try done.
    intros c. destruct (decide (nextRef w = c)) as [<-|Hne].
    + by rewrite !fn_lookup_insert.
    + by rewrite !fn_lookup_insert_ne.
Qed.

Lemma realm_onMessage JSON_parse c data w :
  realm (onMessage JSON_parse c data w).2 = realm w.
Proof.
  unfold onMessage, tryCatch, mbind, M_bind, parseFrame, gets, assignSrc.
  destruct data as [| | | |text|cls props]; simpl; try done.
  destruct (JSON_parse text) as [e|[| | | | |]]; simpl; done.
Qed.

Section Admission.

Variable JSON_parse : string → Error + JValue.
Variable config : IConfig.

Local Abbreviation within_limit w :=
  (Z.of_nat (Realm.count (realm w)) ≤ concurrent_limit config)%Z.

Lemma within_limit_connection socket now w :
  within_limit w → within_limit (_onSocketConnection config socket now w).
Proof.
  intros Hw. unfold _onSocketConnection.
  destruct (_ || _); [done|]. destruct (bool_decide _); [done|].
  destruct (Realm.getClientById (realm w) (socket_id socket)) as [c|] eqn:Hc.
  - by destruct (bool_decide _).
  - pose proof (_registerClient_eq config socket (socket_id socket)
                  (default "" (handshake_query socket !! "token")) now w) as Hreg.
    simpl in Hreg.
    destruct (Z.of_nat (Realm.count (realm w)) <? concurrent_limit config)%Z eqn:Hlt.
    + destruct Hreg as (_ & _ & -> & _). rewrite count_setClient_fresh by done. lia.
    + by rewrite Hreg.
Qed.

Lemma within_limit_dispatch ev w :
  within_limit w → within_limit (dispatch JSON_parse config ev w).
Proof.
  intros Hw. destruct ev as [socket now|socket|socket data]; simpl.
  - by apply within_limit_connection.
  - apply (foldl_invariant (λ w, within_limit w)); [|done]. intros w1 l _ Hw1.
    case_decide; [|done]. unfold onDisconnect. case_decide; [|done]. simpl.
    pose proof (count_removeClientById (getId (heap w1 l.2)) (realm w1)). lia.
  - apply (foldl_invariant (λ w, within_limit w)); [|done]. intros w1 l _ Hw1.
    case_decide; [|done]. by rewrite realm_onMessage.
Qed.

Lemma within_limit_run evs w :
  within_limit w → within_limit (run JSON_parse config evs w).
Proof.
  revert w. induction evs as [|ev evs IH]; intros w Hw; [done|].
  simpl. by apply IH, within_limit_dispatch.
Qed.

End Admission.

(** C4.  A handshake that passed the parameter and key checks and
    claims an id that is not registered is registered exactly when the
    number of registered identities is strictly below
    [concurrent_limit]: a record is created for it, attached to the
    connection, and OPEN is sent.  Otherwise the peer receives ERROR
    ConnectionLimitExceeded, the connection is closed and the registry
    and the store are unchanged.  Hence no event the gateway handles
    takes the number of registered identities above the limit, and from
    an empty registry it never exceeds it. *)
Theorem registration_respects_limit JSON_parse config :
  (∀ socket now w token,
     socket_id socket ≠ "" →
     handshake_query socket !! "token" = Some token → token ≠ "" →
     handshake_query socket !! "key" = Some (key config) → key config ≠ "" →
     Realm.getClientById (realm w) (socket_id socket) = None →
     let w' := _onSocketConnection config socket now w in
     if (Z.of_nat (Realm.count (realm w)) <? concurrent_limit config)%Z then
       Realm.getClientById (realm w') (socket_id socket) = Some (nextRef w)
       ∧ heap w' (nextRef w)
         = mkClient (socket_id socket) token (Some (handle socket)) now
       ∧ Realm.count (realm w') = S (Realm.count (realm w))
       ∧ trace w' = trace w ++ [SocketEmit (handle socket) (mkOutgoing OPEN None);
                                Emit (EvConnection (nextRef w))]
     else
       trace w' = trace w ++ rejection socket CONNECTION_LIMIT_EXCEED
       ∧ realm w' = realm w
       ∧ heap w' = heap w
       ∧ nextRef w' = nextRef w
       ∧ listeners w' = listeners w)
  ∧ (∀ evs w,
       (Z.of_nat (Realm.count (realm w)) ≤ concurrent_limit config)%Z →
       (Z.of_nat (Realm.count (realm (run JSON_parse config evs w)))
        ≤ concurrent_limit config)%Z)
  ∧ ((0 ≤ concurrent_limit config)%Z →
     ∀ evs,
       (Z.of_nat (Realm.count (realm (run JSON_parse config evs emptyWorld)))
        ≤ concurrent_limit config)%Z).
Proof.
  split; [|split].
  - intros socket now w token Hid Htok Htok' Hkey Hkey' Hnew w'.
    subst w'. rewrite (_onSocketConnection_checked _ _ _ _ token) by done.
    rewrite Hnew.
    pose proof (_registerClient_eq config socket (socket_id socket) token now w) as Hreg.
    simpl in Hreg.
    destruct (Z.of_nat (Realm.count (realm w)) <? concurrent_limit config)%Z.
    + destruct Hreg as (Hh & _ & Hr & _ & Ht).
      rewrite Hr, Ht, Hh, fn_lookup_insert. repeat split.
      * unfold Realm.getClientById, Realm.setClient; simpl. apply assoc_set_eq.
      * by apply count_setClient_fresh.
    + by rewrite Hreg.
  - intros evs w. apply within_limit_run.
  - intros Hlim evs. by apply within_limit_run.
Qed.

Lemma registration_respects_limit_witness :
  (let w' := _onSocketConnection ex_gateway_config ex_socket_b 1 ex_connected in
   trace w' = trace ex_connected ++ rejection ex_socket_b CONNECTION_LIMIT_EXCEED
   ∧ realm w' = realm ex_connected)
  ∧ (Z.of_nat (Realm.count (realm (run ex_parse ex_gateway_config
                                     [Connection ex_socket_a 0; Connection ex_socket_b 1]
                                     emptyWorld))) ≤ 1)%Z.
Proof.
  destruct (registration_respects_limit ex_parse ex_gateway_config) as (H1 & _ & H3).
  split.
  - specialize (H1 ex_socket_b 1%Z ex_connected "t2").
    destruct H1 as (G1 & G2 & _); [done|done|done|done|done|done|].
    split; [exact G1 | exact G2].
  - apply H3. done.
Defined.

(** ** The gateway: reconnection and collision *)

(** C5 (as amended).  The id a connection goes by is its own
    [socket.id]; an id that its handshake presents has no part in the
    outcome.  A connection whose [socket.id] is registered and whose
    handshake carries the token stored in that record is admitted
    whatever the configuration and the population of the registry: the
    limit is not consulted, the new handle replaces the one in the
    existing record, the registry and the set of records are unchanged,
    and [connection] is emitted.  A connection whose [socket.id] is not
    registered is handled as a new identity, limit included, also when
    its handshake presents a registered id with the stored token. *)
Theorem reconnect_admitted config socket now w :
  (∀ query',
     query' !! "token" = handshake_query socket !! "token" →
     query' !! "key" = handshake_query socket !! "key" →
     _onSocketConnection config
       (mkSocket (socket_oid socket) (socket_id socket) query') now w
     = _onSocketConnection config socket now w)
  ∧ (∀ token,
       socket_id socket ≠ "" →
       handshake_query socket !! "token" = Some token → token ≠ "" →
       handshake_query socket !! "key" = Some (key config) → key config ≠ "" →
       Realm.getClientById (realm w) (socket_id socket) = None →
       _onSocketConnection config socket now w
       = _registerClient config socket (socket_id socket) token now w)
  ∧ (∀ client token,
       socket_id socket ≠ "" →
       handshake_query socket !! "token" = Some token → token ≠ "" →
       handshake_query socket !! "key" = Some (key config) → key config ≠ "" →
       Realm.getClientById (realm w) (socket_id socket) = Some client →
       getToken (heap w client) = token →
       let w' := _onSocketConnection config socket now w in
       w' = _configureSocket socket client w
       ∧ realm w' = realm w
       ∧ nextRef w' = nextRef w
       ∧ heap w' client = setSocket (Some (handle socket)) (heap w client)
       ∧ (∀ c, c ≠ client → heap w' c = heap w c)
       ∧ listeners w' = listeners w ++ [(handle socket, client)]
       ∧ trace w' = trace w ++ [Emit (EvConnection client)]).
Proof.
  split; [|split].
  - intros query' Ht Hk. destruct socket as [oid sid query].
    by apply _onSocketConnection_query.
  - intros token Hid Htok Htok' Hkey Hkey' Hc.
    rewrite (_onSocketConnection_checked _ _ _ _ token) by done. by rewrite Hc.
  - intros client token Hid Htok Htok' Hkey Hkey' Hc Ht w'. subst w'.
    rewrite (_onSocketConnection_checked _ _ _ _ token) by done.
    rewrite Hc, decide_True by done.
    unfold _configureSocket, clientSetSocket; simpl.
    rewrite fn_lookup_insert. repeat split; try done.
    intros c Hne. by rewrite fn_lookup_insert_ne.
Qed.

Lemma reconnect_admitted_witness :
  let w' := _onSocketConnection ex_gateway_config ex_socket_a_again 1 ex_connected in
  Z.of_nat (Realm.count (realm ex_connected)) = concurrent_limit ex_gateway_config
  ∧ realm w' = realm ex_connected
  ∧ getSocket (heap w' 0%nat) = Some (Socket 4)
  ∧ _onSocketConnection ex_gateway_config
      (mkSocket 4 "sidA" (<["id" := "sidB"]> (ex_query "t1"))) 1 ex_connected = w'
  ∧ _onSocketConnection ex_roomy_config ex_socket_presenting_a 1 ex_connected
    = _registerClient ex_roomy_config ex_socket_presenting_a "sidB" "t1" 1 ex_connected.
Proof.
  destruct (reconnect_admitted ex_gateway_config ex_socket_a_again 1 ex_connected)
    as (Hquery & _ & Hre).
  destruct (Hre 0%nat "t1") as (_ & H1 & _ & H2 & _);
    [done|done|done|done|done|done|done|].
  split; [done|]. split; [exact H1|]. split; [by rewrite H2|].
  split; [apply Hquery; reflexivity|].
  destruct (reconnect_admitted ex_roomy_config ex_socket_presenting_a 1 ex_connected)
    as (_ & Hnew & _).
  apply Hnew; done.
Defined.

(** C5 as stated fails: a peer that presents the registered id
    ["sidA"] with its stored token, on a connection of its own
    ([socket.id] ["sidB"]), is not reconnected.  With the registry at
    the limit it is turned away with ConnectionLimitExceeded; with room
    left it becomes a second identity under ["sidB"].  Either way the
    record of ["sidA"] keeps its old handle. *)
Lemma presented_id_not_reconnected :
  (handshake_query ex_socket_presenting_a !! "id" = Some "sidA"
   ∧ Realm.getClientById (realm ex_connected) "sidA" = Some 0%nat
   ∧ getToken (heap ex_connected 0%nat) = "t1"
   ∧ (let w' := _onSocketConnection ex_gateway_config ex_socket_presenting_a 1
                  ex_connected in
      trace w' = trace ex_connected
                 ++ rejection ex_socket_presenting_a CONNECTION_LIMIT_EXCEED
      ∧ getSocket (heap w' 0%nat) = Some (Socket 1))
   ∧ (let w' := _onSocketConnection ex_roomy_config ex_socket_presenting_a 1
                  ex_connected in
      Realm.count (realm w') = 2%nat
      ∧ Realm.getClientById (realm w') "sidB" = Some 1%nat
      ∧ getSocket (heap w' 0%nat) = Some (Socket 1)))
  ∧ ¬ reconnect_by_presented_id.
Proof.
  split; [by vm_compute|].
  intros H.
  destruct (H ex_gateway_config ex_socket_presenting_a 1%Z ex_connected
              "sidA" "t1" 0%nat) as [H1 _];
    [done|done|done|done|done|done|done|done|].
  vm_compute in H1. done.
Qed.

(** C6 (as amended).  The id a connection goes by is its own
    [socket.id]; an id that its handshake presents has no part in the
    outcome.  A connection whose [socket.id] is registered and whose
    handshake carries a token other than the stored one receives a
    message of kind ID-TAKEN and is closed; the registry and the records
    (the existing one and the handle attached to it among them) are
    unchanged, and no listener is put on the connection. *)
Theorem wrong_token_id_taken config socket now w :
  (∀ query',
     query' !! "token" = handshake_query socket !! "token" →
     query' !! "key" = handshake_query socket !! "key" →
     _onSocketConnection config
       (mkSocket (socket_oid socket) (socket_id socket) query') now w
     = _onSocketConnection config socket now w)
  ∧ (∀ client token,
       socket_id socket ≠ "" →
       handshake_query socket !! "token" = Some token → token ≠ "" →
       handshake_query socket !! "key" = Some (key config) → key config ≠ "" →
       Realm.getClientById (realm w) (socket_id socket) = Some client →
       getToken (heap w client) ≠ token →
       let w' := _onSocketConnection config socket now w in
       trace w' = trace w ++
         [SocketEmit (handle socket) (mkOutgoing ID_TAKEN (Some (Text "ID is taken")));
          SocketDisconnect (handle socket)]
       ∧ realm w' = realm w
       ∧ heap w' = heap w
       ∧ nextRef w' = nextRef w
       ∧ listeners w' = listeners w).
Proof.
  split.
  - intros query' Ht Hk. destruct socket as [oid sid query].
    by apply _onSocketConnection_query.
  - intros client token Hid Htok Htok' Hkey Hkey' Hc Ht w'. subst w'.
    rewrite (_onSocketConnection_checked _ _ _ _ token) by done.
    rewrite Hc, decide_False by congruence. done.
Qed.

Lemma wrong_token_id_taken_witness :
  let w' := _onSocketConnection ex_gateway_config ex_socket_a_intruder 1 ex_connected in
  trace w' = trace ex_connected ++
    [SocketEmit (Socket 5) (mkOutgoing ID_TAKEN (Some (Text "ID is taken")));
     SocketDisconnect (Socket 5)]
  ∧ realm w' = realm ex_connected
  ∧ getSocket (heap w' 0%nat) = Some (Socket 1)
  ∧ _onSocketConnection ex_gateway_config
      (mkSocket 5 "sidA" (<["id" := "sidB"]> (ex_query "t2"))) 1 ex_connected = w'.
Proof.
  destruct (wrong_token_id_taken ex_gateway_config ex_socket_a_intruder 1 ex_connected)
    as (Hquery & Htaken).
  destruct (Htaken 0%nat "t2") as (H1 & H2 & H3 & _);
    [done|done|done|done|done|done|done|].
  split; [exact H1|]. split; [exact H2|]. split; [by rewrite H3|].
  apply Hquery; reflexivity.
Defined.

(** C6 as stated fails: a peer that presents the registered id
    ["sidA"] with a token other than the stored one, on a connection of
    its own ([socket.id] ["sidB"]), is not answered with ID-TAKEN.  With
    room left in the registry it is admitted as a second identity under
    ["sidB"] and sent OPEN, so the registry does not stay as it was. *)
Lemma presented_id_wrong_token_admitted :
  (handshake_query ex_socket_presenting_a_wrong !! "id" = Some "sidA"
   ∧ handshake_query ex_socket_presenting_a_wrong !! "token" = Some "t2"
   ∧ Realm.getClientById (realm ex_connected) "sidA" = Some 0%nat
   ∧ getToken (heap ex_connected 0%nat) = "t1"
   ∧ let w' := _onSocketConnection ex_roomy_config ex_socket_presenting_a_wrong 1
                 ex_connected in
     trace w' = trace ex_connected
                ++ [SocketEmit (Socket 7) (mkOutgoing OPEN None);
                    Emit (EvConnection 1)]
     ∧ Realm.getClientById (realm w') "sidB" = Some 1%nat
     ∧ Realm.count (realm w') = 2%nat)
  ∧ ¬ id_taken_by_presented_id.
Proof.
  split; [by vm_compute|].
  intros H.
  destruct (H ex_roomy_config ex_socket_presenting_a_wrong 1%Z ex_connected
              "sidA" "t2" 0%nat) as [H1 _];
    [done|done|done|done|done|done|done|done|].
  vm_compute in H1. done.
Qed.

End Handshake.

(** ** The gateway: listeners *)

Section Listeners.

Import SocketIOServer.

(** Setting [src] leaves the other properties of a message as they are. *)
Lemma setProp_other k x props k' :
  k ≠ k' → getProp k' (setProp k x props) = getProp k' props.
Proof. apply assoc_set_ne. Qed.

(** C9.  For every inbound frame, structured or text, the ["message"]
    listener returns normally and leaves registry and records alone.
    When the frame (once parsed, if it is text) is an object, exactly one
    [message] event is emitted, for the connection's record, and the
    message is that object with [src] set to the id of the record,
    whatever [src] it carried.  Otherwise no message is emitted: an
    [error] event is, with the parse error or the error of the
    assignment. *)
Theorem message_src_forced JSON_parse client data w :
  let w' := (onMessage JSON_parse client data w).2 in
  let id := getId (heap w client) in
  (onMessage JSON_parse client data w).1 = Normal tt
  ∧ realm w' = realm w
  ∧ heap w' = heap w
  ∧ listeners w' = listeners w
  ∧ match decodeFrame JSON_parse data with
    | inr (JObject cls props) =>
        let message := JObject cls (setProp "src" (JString id) props) in
        trace w' = trace w ++ [Emit (EvMessage client message)]
        ∧ srcOf message = Some (JString id)
    | inr _ => trace w' = trace w ++ [Emit (EvError "TypeError")]
    | inl e => trace w' = trace w ++ [Emit (EvError e)]
    end.
Proof.
  unfold onMessage, tryCatch, mbind, M_bind, parseFrame, decodeFrame, gets, assignSrc.
  destruct data as [| | | |text|cls props]; simpl; try done.
  - destruct (JSON_parse text) as [e|[| | | | |cls props]]; simpl; try done.
    repeat split. apply assoc_set_eq.
  - repeat split. apply assoc_set_eq.
Qed.

End Listeners.

(** ** The gateway: the record a listener closes over *)

Section GatewayInvariant.

Import SocketIOServer.

Variable JSON_parse : string → Error + JValue.
Variable config : IConfig.

Lemma onMessage_effects c data w :
  ∃ es, (onMessage JSON_parse c data w).2 = performAll es w.
Proof.
  unfold onMessage, tryCatch, mbind, M_bind, parseFrame, gets, assignSrc, modify.
  destruct data as [| | | |text|cls props]; simpl; try (by eexists [_]).
  destruct (JSON_parse text) as [e|[| | | | |]]; simpl; by eexists [_].
Qed.

Lemma gateway_inv_effects seen gone es w :
  gateway_inv seen gone w → gateway_inv seen gone (performAll es w).
Proof. done. Qed.

Lemma gateway_inv_seen seen gone s w :
  gateway_inv seen gone w → gateway_inv (s :: seen) gone w.
Proof.
  intros (H1 & H2 & H3). split; [|done].
  intros s' c Hl. destruct (H1 _ _ Hl). split; [by right|done].
Qed.

Lemma gateway_inv_message seen gone socket data w :
  gateway_inv seen gone w →
  gateway_inv seen gone (dispatch JSON_parse config (Message socket data) w).
Proof.
  intros Hinv. simpl. apply foldl_invariant; [|done].
  intros w' l _ Hw'. case_decide; [|done].
  destruct (onMessage_effects l.2 data w') as [es ->].
  by apply gateway_inv_effects.
Qed.

Lemma gateway_inv_disconnect seen gone socket w :
  socket ∉ gone →
  gateway_inv seen gone w →
  gateway_inv seen (socket :: gone) (dispatch JSON_parse config (Disconnect socket) w).
Proof.
  intros Hlive (H1 & H2 & H3). simpl.
  (* what the listeners of [socket] can have done to the world *)
  set (P := λ w' : World,
         heap w' = heap w ∧ nextRef w' = nextRef w ∧ listeners w' = listeners w
         ∧ ∀ id,
             Realm.getClientById (realm w') id = Realm.getClientById (realm w) id
             ∨ (Realm.getClientById (realm w') id = None
                ∧ ∃ c0, (socket, c0) ∈ listeners w
                        ∧ getSocket (heap w c0) = Some socket
                        ∧ getId (heap w c0) = id)).
  assert (P (foldl (λ w l, if decide (l.1 = socket)
                           then onDisconnect socket l.2 w else w) w (listeners w)))
    as (Hh & Hn & Hl & Hr).
  { apply foldl_invariant; [|by repeat split; auto].
    intros w' [s0 c0] Hin (Hh & Hn & Hl & Hr); simpl.
    case_decide as Hs; [subst s0|done].
    unfold onDisconnect. case_decide as Hg; [|done]. rewrite Hh in Hg.
    split; [done|]. split; [done|]. split; [done|].
    intros id. unfold Realm.getClientById at 1 3; simpl. rewrite Hh.
    destruct (decide (getId (heap w c0) = id)) as [<-|Hne].
    - right. rewrite assoc_del_eq. eauto.
    - rewrite assoc_del_ne by done. apply Hr. }
  set (w' := foldl _ w (listeners w)) in *.
  split; [|split].
  - intros s c Hlc. rewrite Hl in Hlc. rewrite Hn. by apply H1.
  - intros s c Hlc [Hne Hs]%not_elem_of_cons Hsock.
    rewrite Hl in Hlc. rewrite Hh in Hsock |- *.
    pose proof (H2 _ _ Hlc Hs Hsock) as Hreg.
    destruct (Hr (getId (heap w c))) as [->|(_ & c0 & Hl0 & Hs0 & Hid)]; [done|].
    pose proof (H2 _ _ Hl0 Hlive Hs0) as Hreg0. rewrite Hid in Hreg0.
    assert (c0 = c) as -> by congruence. congruence.
  - intros id c Hc. rewrite Hn, Hh.
    destruct (Hr id) as [Heq|[Hnone _]]; [|congruence].
    rewrite Heq in Hc. by apply H3.
Qed.

Lemma gateway_inv_connection seen gone socket now w :
  handle socket ∉ seen →
  gateway_inv seen gone w →
  gateway_inv (handle socket :: seen) gone
    (dispatch JSON_parse config (Connection socket now) w).
Proof.
  intros Hfresh Hinv. pose proof Hinv as (H1 & H2 & H3). simpl.
  unfold _onSocketConnection.
  destruct (_ || _); [by apply gateway_inv_seen|].
  destruct (bool_decide _); [by apply gateway_inv_seen|].
  destruct (Realm.getClientById (realm w) (socket_id socket)) as [client|] eqn:Hc.
  - (* the id is registered *)
    destruct (bool_decide _); [by apply gateway_inv_seen|].
    destruct (H3 _ _ Hc) as [Hlt Hid].
    unfold _configureSocket, clientSetSocket; simpl.
    split; [|split]; simpl.
    + intros s c [Hl|Hl%list_elem_of_singleton]%elem_of_app.
      * destruct (H1 _ _ Hl). split; [by right|done].
      * simplify_eq. split; [by left|done].
    + intros s c Hl Hs. destruct (decide (c = client)) as [->|Hne].
      * rewrite !fn_lookup_insert. intros _.
        change (getId (setSocket (Some (handle socket)) (heap w client)))
          with (getId (heap w client)).
        by rewrite Hid.
      * rewrite fn_lookup_insert_ne by done.
        apply elem_of_app in Hl as [Hl|Hl%list_elem_of_singleton];
          [by apply H2 | by simplify_eq].
    + intros id c Hreg. destruct (H3 _ _ Hreg) as [Hlt' Hid']. split; [done|].
      destruct (decide (c = client)) as [->|Hne].
      * by rewrite fn_lookup_insert.
      * by rewrite fn_lookup_insert_ne.
  - (* the id is new *)
    pose proof (_registerClient_eq config socket (socket_id socket)
                  (default "" (handshake_query socket !! "token")) now w) as Hreg.
    simpl in Hreg.
    destruct (Z.of_nat (Realm.count (realm w)) <? concurrent_limit config)%Z;
      [|rewrite Hreg; by apply gateway_inv_seen].
    destruct Hreg as (Hh & Hn & Hr & Hl & _).
    set (w' := _registerClient _ _ _ _ _ _) in *.
    assert (∀ c, (c < nextRef w)%nat → heap w' c = heap w c) as Hold.
    { intros c Hlt. rewrite Hh, fn_lookup_insert_ne; [done|lia]. }
    split; [|split].
    + intros s c. rewrite Hl, Hn.
      intros [Hin|Hin%list_elem_of_singleton]%elem_of_app.
      * destruct (H1 _ _ Hin). split; [by right|lia].
      * simplify_eq. split; [by left|lia].
    + intros s c. rewrite Hl, Hr.
      intros [Hin|Hin%list_elem_of_singleton]%elem_of_app Hs.
      * destruct (H1 _ _ Hin) as [_ Hlt]. rewrite (Hold _ Hlt). intros Hsock.
        pose proof (H2 _ _ Hin Hs Hsock) as Hreg.
        unfold Realm.getClientById, Realm.setClient; simpl.
        rewrite assoc_set_ne; [done|]. intros Heq.
        unfold Realm.getClientById in Hc, Hreg. congruence.
      * simplify_eq. intros _. rewrite Hh, fn_lookup_insert; simpl.
        unfold Realm.getClientById, Realm.setClient; simpl. apply assoc_set_eq.
    + intros id c. rewrite Hr, Hn.
      unfold Realm.getClientById, Realm.setClient; simpl.
      destruct (decide (socket_id socket = id)) as [<-|Hne].
      * rewrite assoc_set_eq. intros [= <-]. split; [lia|].
        by rewrite Hh, fn_lookup_insert.
      * rewrite assoc_set_ne by done. intros Hreg.
        destruct (H3 _ _ Hreg) as [Hlt Hid]. split; [lia|]. by rewrite Hold.
Qed.

Lemma gateway_inv_run evs seen gone w :
  orderly seen gone evs →
  gateway_inv seen gone w →
  ∃ seen', gateway_inv seen' (reverse (disconnected evs) ++ gone)
             (run JSON_parse config evs w).
Proof.
  revert seen gone w. induction evs as [|ev evs IH]; intros seen gone w Hord Hinv.
  - by exists seen.
  - destruct ev as [socket now|socket|socket data]; simpl in Hord |- *.
    + destruct Hord as [Hfresh Hord].
      apply (IH _ _ _ Hord). by apply gateway_inv_connection.
    + destruct Hord as (_ & Hlive & Hord).
      destruct (IH _ _ _ Hord (gateway_inv_disconnect _ _ _ _ Hlive Hinv))
        as [seen' Hinv'].
      exists seen'. by rewrite reverse_cons, <- app_assoc.
    + apply (IH _ _ _ Hord). by apply gateway_inv_message.
Qed.

Lemma gateway_inv_empty : gateway_inv [] [] emptyWorld.
Proof.
  split; [|split].
  - by intros s c ?%elem_of_nil.
  - by intros s c ?%elem_of_nil.
  - by intros id c.
Qed.

(** C7.  The ["disconnect"] listener of a connection removes the
    record from the registry and emits [close] exactly when the handle
    held by the record it was installed for is this connection's
    handle; otherwise it changes nothing.  In particular, once a
    reconnection has put a newer handle in the record, the listener of
    the older connection changes nothing.  And along every orderly
    history of the gateway, a record that holds the handle of a live
    connection's listener is the record registered under its id: what
    the listener removes is the record of its own identity. *)
Theorem disconnect_guarded socket client w :
  let w' := onDisconnect socket client w in
  (if decide (getSocket (heap w client) = Some socket) then
     realm w' = Realm.removeClientById (getId (heap w client)) (realm w)
     ∧ Realm.getClientById (realm w') (getId (heap w client)) = None
     ∧ trace w' = trace w ++ [Emit (EvClose client)]
     ∧ heap w' = heap w
     ∧ nextRef w' = nextRef w
     ∧ listeners w' = listeners w
   else w' = w)
  ∧ (∀ newer,
       handle newer ≠ socket →
       onDisconnect socket client (_configureSocket newer client w)
       = _configureSocket newer client w)
  ∧ (∀ evs,
       orderly [] [] evs →
       let w := run JSON_parse config evs emptyWorld in
       ∀ s c, (s, c) ∈ listeners w → s ∉ disconnected evs →
              getSocket (heap w c) = Some s →
              Realm.getClientById (realm w) (getId (heap w c)) = Some c).
Proof.
  intros w'. subst w'. split; [|split].
  - unfold onDisconnect. case_decide; [|done].
    repeat split; try done.
    unfold Realm.getClientById, Realm.removeClientById; simpl. apply assoc_del_eq.
  - intros newer Hne. unfold onDisconnect.
    rewrite decide_False; [done|].
    unfold _configureSocket, clientSetSocket; simpl.
    rewrite fn_lookup_insert; simpl. congruence.
  - intros evs Hord w1 s c Hl Hs Hsock.
    destruct (gateway_inv_run evs [] [] emptyWorld Hord gateway_inv_empty)
      as (seen & _ & H2 & _).
    apply (H2 s c); [done| |done].
    rewrite app_nil_r, elem_of_reverse. done.
Qed.

End GatewayInvariant.

Lemma disconnect_guarded_witness :
  let w1 := SocketIOServer._onSocketConnection
              ex_gateway_config ex_socket_a_again 1 ex_connected in
  SocketIOServer.onDisconnect (Socket 1) 0%nat w1 = w1
  ∧ Realm.getClientById
      (realm (SocketIOServer.onDisconnect (Socket 4) 0%nat w1)) "sidA" = None
  ∧ Realm.getClientById (realm w1) "sidA" = Some 0%nat.
Proof.
  destruct (disconnect_guarded ex_parse ex_gateway_config (Socket 1) 0%nat ex_connected)
    as (_ & H1 & H3).
  split; [|split].
  - apply (H1 ex_socket_a_again). discriminate.
  - destruct (disconnect_guarded ex_parse ex_gateway_config (Socket 4) 0%nat
                (SocketIOServer._onSocketConnection
                   ex_gateway_config ex_socket_a_again 1 ex_connected))
      as [H2 _].
    rewrite decide_True in H2 by done. by destruct H2 as (_ & H2 & _).
  - apply (H3 [SocketIOServer.Connection ex_socket_a 0;
               SocketIOServer.Connection ex_socket_a_again 1]
              ltac:(simpl; split; [by intros ?%elem_of_nil|]; split; [|done];
                    apply not_elem_of_cons;
                    split; [discriminate | by intros ?%elem_of_nil])
              (Socket 4) 0%nat).
    + apply list_elem_of_lookup. by exists 1%nat.
    + by intros ?%elem_of_nil.
    + done.
Defined.

(** * Further properties *)

(** ** The sweeper: what a pass keeps *)

Lemma sweep_keeps_refl w : sweep_keeps w w.
Proof. by repeat split. Qed.

Lemma sweep_keeps_trans w1 w2 w3 :
  sweep_keeps w1 w2 → sweep_keeps w2 w3 → sweep_keeps w1 w3.
Proof.
  intros (A1 & A2 & A3 & A4) (B1 & B2 & B3 & B4).
  split; [congruence|]. split; [congruence|]. split.
  - intros c. destruct (A3 c) as (? & ? & ?), (B3 c) as (? & ? & ?).
    repeat split; congruence.
  - intros c s Hs. by apply A4, B4.
Qed.

Lemma sweep_keeps_evict self i c w : sweep_keeps w (evict self i c w).
Proof.
  split; [done|]. split; [done|]. split.
  - intros c'. unfold evict; simpl.
    destruct (decide (c = c')) as [->|Hne].
    + by rewrite fn_lookup_insert.
    + by rewrite fn_lookup_insert_ne.
  - intros c' s. unfold evict; simpl.
    destruct (decide (c = c')) as [->|Hne].
    + by rewrite fn_lookup_insert.
    + by rewrite fn_lookup_insert_ne.
Qed.

Lemma stale_kept self now w w' c :
  sweep_keeps w w' → stale self now (heap w' c) = stale self now (heap w c).
Proof.
  intros (_ & _ & H & _). destruct (H c) as (_ & _ & Hp).
  unfold stale. by rewrite Hp.
Qed.

Section SweeperFrame.

Import CheckBrokenConnections.

Variable closeRaises : Transport → option Error.
Variable self : CheckBrokenConnections.t.
Variable now : Z.

Local Abbreviation step := (checkOne closeRaises self now).

Lemma checkOne_keeps i w : sweep_keeps w (step i w).2.
Proof.
  destruct (checkOne_cases closeRaises self now i w) as [Hs|(c & _ & _ & Hs)];
    rewrite Hs; cbn [snd].
  - apply sweep_keeps_refl.
  - apply sweep_keeps_evict.
Qed.

Lemma pass_keeps ids w : sweep_keeps w (forOf ids step w).2.
Proof.
  revert w. induction ids as [|i ids IH]; intros w.
  - apply sweep_keeps_refl.
  - rewrite forOf_cons. pose proof (checkOne_keeps i w) as Hs.
    destruct (step i w) as [[[]|e] w1]; cbn [snd] in *; [|done].
    eapply sweep_keeps_trans; [exact Hs | apply IH].
Qed.

(** How the registry looks after the ids of a list have been dealt
    with and the loop has returned. *)
Lemma pass_returns_lookup ids w w' i :
  forOf ids step w = (Normal tt, w') →
  Realm.getClientById (realm w') i =
  if decide (i ∈ ids) then freshOnly self now w i
  else Realm.getClientById (realm w) i.
Proof.
  revert w. induction ids as [|j ids IH]; intros w.
  - intros [= <-]. rewrite decide_False; [done|]. by intros ?%elem_of_nil.
  - rewrite forOf_cons. pose proof (checkOne_keeps j w) as Hk.
    pose proof (checkOne_eq closeRaises self now j w) as Hj.
    destruct (step j w) as [[[]|e] w1] eqn:Hs; [|done]. cbn [snd] in Hk.
    intros Hrest. rewrite (IH _ Hrest).
    (* the state after [j] against the state before it *)
    assert (Realm.getClientById (realm w1) i =
            if decide (i = j) then freshOnly self now w i
            else Realm.getClientById (realm w) i) as Hl.
    { unfold freshOnly.
      destruct (Realm.getClientById (realm w) j) as [c|] eqn:Hc;
        [destruct (stale self now (heap w c)) eqn:Hst|]; simplify_eq.
      - destruct (evict_lookup self j c w) as (E1 & _ & _ & E4 & _).
        destruct (decide (i = j)) as [Hij|Hij]; [|by apply E4].
        by rewrite Hij, E1, Hc, Hst.
      - destruct (decide (i = j)) as [Hij|Hij]; [|done]. by rewrite Hij, Hc, Hst.
      - destruct (decide (i = j)) as [Hij|Hij]; [|done]. by rewrite Hij, Hc. }
    assert (freshOnly self now w1 i = freshOnly self now w i) as Hf.
    { unfold freshOnly at 1. rewrite Hl. case_decide as Hij.
      - unfold freshOnly. destruct (Realm.getClientById (realm w) i) as [c|]; [|done].
        destruct (stale self now (heap w c)) eqn:Hst; [done|].
        by rewrite (stale_kept _ _ _ _ _ Hk), Hst.
      - unfold freshOnly. destruct (Realm.getClientById (realm w) i) as [c|]; [|done].
        by rewrite (stale_kept _ _ _ _ _ Hk). }
    rewrite Hl, Hf.
    destruct (decide (i = j)) as [->|Hij].
    + rewrite (decide_True (P := j ∈ j :: ids)) by (by left).
      by case_decide.
    + destruct (decide (i ∈ ids)) as [Hin|Hin].
      * rewrite decide_True; [done|by right].
      * rewrite decide_False; [done|].
        intros [?|?]%elem_of_cons; done.
Qed.

(** When every registered record is fresh a pass does nothing. *)
Lemma pass_all_fresh ids w :
  (∀ i c, Realm.getClientById (realm w) i = Some c →
          stale self now (heap w c) = false) →
  forOf ids step w = (Normal tt, w).
Proof.
  intros Hfresh. induction ids as [|j ids IH]; [done|].
  rewrite forOf_cons, checkOne_eq.
  destruct (Realm.getClientById (realm w) j) as [c|] eqn:Hc; [|done].
  by rewrite (Hfresh _ _ Hc).
Qed.

(** A record that a pass took out of the registry has no handle. *)
Lemma pass_removed_detached ids w i c :
  Realm.getClientById (realm w) i = Some c →
  Realm.getClientById (realm (forOf ids step w).2) i = None →
  getSocket (heap (forOf ids step w).2 c) = None.
Proof.
  revert w. induction ids as [|j ids IH]; intros w Hc; [simpl; congruence|].
  rewrite forOf_cons.
  destruct (checkOne_cases closeRaises self now j w) as [Hs|(c' & Hj & _ & Hs)];
    rewrite Hs.
  - by apply IH.
  - destruct (evict_lookup self j c' w) as (E1 & _ & E3 & E4 & _).
    destruct (decide (i = j)) as [->|Hij].
    + assert (c' = c) as -> by congruence. intros _.
      assert (getSocket (heap (evict self j c w) c) = None →
              ∀ w2, sweep_keeps (evict self j c w) w2 → getSocket (heap w2 c) = None)
        as Hstay.
      { intros Hn w2 (_ & _ & _ & Hm).
        destruct (getSocket (heap w2 c)) as [s|] eqn:E; [|done].
        apply Hm in E. congruence. }
      destruct (closeOutcome closeRaises (getSocket (heap w c))) as [[]|e];
        cbn [snd]; [|done].
      apply Hstay; [done|apply pass_keeps].
    + destruct (closeOutcome closeRaises (getSocket (heap w c'))) as [[]|e];
        cbn [snd].
      * apply IH. by rewrite E4.
      * rewrite E4 by done. congruence.
Qed.



End SweeperFrame.

(** X1.  Whatever a pass does, and also when it ends with an error: it
    allocates no record and touches no listener; ids, tokens and
    timestamps of all records stay; a handle is never put into a record,
    only taken out; nothing is registered and no queue appears; and the
    number of registered identities does not grow. *)
Theorem pass_only_removes closeRaises self now w :
  let w' := (CheckBrokenConnections.checkConnections closeRaises self now w).2 in
  nextRef w' = nextRef w
  ∧ listeners w' = listeners w
  ∧ (∀ c, getId (heap w' c) = getId (heap w c)
          ∧ getToken (heap w' c) = getToken (heap w c)
          ∧ getLastPing (heap w' c) = getLastPing (heap w c))
  ∧ (∀ c, getSocket (heap w' c) = getSocket (heap w c)
          ∨ getSocket (heap w' c) = None)
  ∧ (∀ k, Realm.getClientById (realm w') k = Realm.getClientById (realm w) k
          ∨ Realm.getClientById (realm w') k = None)
  ∧ (∀ k, Realm.getMessageQueueById (realm w) k = None →
          Realm.getMessageQueueById (realm w') k = None)
  ∧ (Realm.count (realm w') ≤ Realm.count (realm w))%nat.
Proof.
  intros w'. subst w'. rewrite checkConnections_eq.
  set (ids := Realm.getClientsIds (realm w)).
  pose proof (pass_keeps closeRaises self now ids w) as (K1 & K2 & K3 & K4).
  pose proof (pass_sweeps closeRaises self now ids w) as (_ & S2 & S3 & _ & S5 & _).
  split; [done|]. split; [done|]. split; [done|].
  split; [|split; [|split; [done|done]]].
  - intros c. destruct (getSocket (heap (forOf ids _ w).2 c)) as [s|] eqn:E; [|by right].
    left. by rewrite (K4 _ _ E).
  - intros k. destruct (Realm.getClientById (realm (forOf ids _ w).2) k) as [x|] eqn:E;
      [|by right].
    left. by rewrite (S2 _ _ E).
Qed.

Lemma pass_returns_registry closeRaises self now w w' :
  CheckBrokenConnections.checkConnections closeRaises self now w = (Normal tt, w') →
  ∀ i, Realm.getClientById (realm w') i = freshOnly self now w i.
Proof.
  rewrite checkConnections_eq. intros Hpass i.
  rewrite (pass_returns_lookup closeRaises self now _ _ _ i Hpass).
  case_decide as Hin; [done|].
  unfold freshOnly.
  destruct (Realm.getClientById (realm w) i) as [c|] eqn:Hc; [|done].
  exfalso. apply Hin. unfold Realm.getClientsIds.
  apply assoc_Some_elem in Hc. apply list_elem_of_fmap. by exists (i, c).
Qed.

(** X2.  When a pass returns, the registry holds exactly the records
    that were registered and fresh when it began: every stale identity
    is gone and every fresh one is still registered, with its record. *)
Theorem pass_returns_fresh_registry closeRaises self now w w' :
  CheckBrokenConnections.checkConnections closeRaises self now w = (Normal tt, w') →
  ∀ i, Realm.getClientById (realm w') i = freshOnly self now w i.
Proof. apply pass_returns_registry. Qed.


Lemma pass_returns_fresh_registry_witness :
  let w' := (CheckBrokenConnections.checkConnections ex_quiet ex_sweeper 3000 ex_world).2 in
  Realm.getClientById (realm w') "a" = Some 0%nat
  ∧ Realm.getClientById
      (realm (CheckBrokenConnections.checkConnections
                ex_quiet ex_sweeper 10000 ex_world).2) "a" = None.
Proof.
  split.
  - apply (pass_returns_fresh_registry ex_quiet ex_sweeper 3000 ex_world _ eq_refl "a").
  - apply (pass_returns_fresh_registry ex_quiet ex_sweeper 10000 ex_world _ eq_refl "a").
Defined.

(** X3.  A pass that has returned has nothing left to do: a second pass
    at the same clock reading returns and leaves the world, trace
    included, as the first one left it, whatever the transports would
    do. *)
Theorem second_pass_changes_nothing closeRaises closeRaises' self now w w' :
  CheckBrokenConnections.checkConnections closeRaises self now w = (Normal tt, w') →
  CheckBrokenConnections.checkConnections closeRaises' self now w' = (Normal tt, w').
Proof.
  intros Hpass. rewrite checkConnections_eq. apply pass_all_fresh.
  intros i c Hc.
  rewrite (pass_returns_registry _ _ _ _ _ Hpass) in Hc.
  pose proof (pass_keeps closeRaises self now (Realm.getClientsIds (realm w)) w) as Hk.
  rewrite checkConnections_eq in Hpass. rewrite Hpass in Hk. cbn [snd] in Hk.
  rewrite (stale_kept _ _ _ _ _ Hk).
  unfold freshOnly in Hc.
  destruct (Realm.getClientById (realm w) i) as [c0|]; [|done].
  destruct (stale self now (heap w c0)) eqn:Hst; [done|]. by simplify_eq.
Qed.

Lemma second_pass_changes_nothing_witness :
  let w' := (CheckBrokenConnections.checkConnections ex_quiet ex_sweeper 10000 ex_world).2 in
  CheckBrokenConnections.checkConnections ex_raises ex_sweeper 10000 w' = (Normal tt, w').
Proof.
  apply (second_pass_changes_nothing ex_quiet ex_raises ex_sweeper 10000 ex_world).
  reflexivity.
Defined.



(** ** The sweeper: when passes run *)

Section SchedulingFurther.

Import CheckBrokenConnections.

Lemma dueTimer_single i due now n :
  dueTimer now (mkTimers n [(i, due)]) = if decide (due ≤ now)%Z then Some i else None.
Proof.
  unfold dueTimer; simpl. rewrite filter_cons; simpl. by case_decide.
Qed.

Lemma fire_idle closeRaises now tEnd self t w :
  pending t = [] → fire closeRaises now tEnd (self, t) w = (Normal tt, (self, t), w).
Proof. intros Hp. unfold fire, dueTimer. by rewrite Hp. Qed.

Lemma idle_step st op :
  pending st.1.2 = [] → isStart op = false →
  pending (sweeperStep st op).1.2 = []
  ∧ (sweeperStep st op).2 = sweeperActivities [op] st.2.
Proof.
  destruct st as [[self t] w]; cbn [fst snd]. intros Hp Hop.
  destruct op as [now| |closeRaises now tEnd|f]; [done| | |done];
    unfold sweeperStep; cbn [fst snd].
  - split; [|done]. unfold stop. destruct (timeoutId self); [|done].
    simpl. by rewrite Hp.
  - by rewrite fire_idle.
Qed.

Lemma idle_run ops st :
  pending st.1.2 = [] → forallb (λ op, negb (isStart op)) ops = true →
  pending (sweeperRun st ops).1.2 = []
  ∧ (sweeperRun st ops).2 = sweeperActivities ops st.2.
Proof.
  revert st. induction ops as [|op ops IH]; intros st Hp Hops; [done|].
  simpl in Hops. apply andb_true_iff in Hops as [Hop Hops].
  apply negb_true_iff in Hop.
  destruct (idle_step st op Hp Hop) as [H1 H2].
  destruct (IH _ H1 Hops) as [G1 G2]. simpl. split; [done|].
  rewrite G2, H2. done.
Qed.

(** X6.  In every state a sweeper can be in, after [start()] at time
    [t0] the timer phase runs no pass at any time before
    [t0 + checkInterval]: it leaves sweeper, timers and world as they
    are.  From that time on it runs one. *)
Theorem no_pass_before_interval config interval onClose w0 ops t0 closeRaises now tEnd w1 :
  let '(self, timers, _) :=
    sweeperRun (new config interval onClose, noTimers, w0) ops in
  let started := start t0 (self, timers) in
  if decide (now < t0 + checkInterval self)%Z then
    fire closeRaises now tEnd started w1 = (Normal tt, started, w1)
  else
    (fire closeRaises now tEnd started w1).2
    = (checkConnections closeRaises started.1 now w1).2.
Proof.
  pose proof (one_timer_run ops (new config interval onClose, noTimers, w0)) as H.
  destruct (sweeperRun _ ops) as [[self timers] w]; simpl in H.
  destruct H as [Hone _]; [by left|].
  rewrite (start_arms t0 self timers Hone). cbn zeta.
  set (self' := setTimeoutId (Some (nextTimer timers)) self).
  set (timers' := mkTimers _ _).
  assert (one_timer (self', timers')) as Hone' by (right; simpl; eauto).
  rewrite (fire_eq closeRaises now tEnd self' timers' w1 Hone').
  subst timers'. rewrite dueTimer_single.
  repeat case_decide; try lia; [done|].
  cbn [fst]. by destruct (checkConnections closeRaises self' now w1) as [[[]|e] w2].
Qed.

(** X7.  A pass that ends with an error ends the sweeping: from then
    on, until [start()] is called again, no timer is pending and the
    timer phase runs no pass at any time; the world changes only through
    what the rest of the program does. *)
Theorem sweeping_ends_with_failed_pass
    config interval onClose w0 ops closeRaises now tEnd e st' w' ops' :
  let '(st, w) := sweeperRun (new config interval onClose, noTimers, w0) ops in
  fire closeRaises now tEnd st w = (Throw e, st', w') →
  forallb (λ op, negb (isStart op)) ops' = true →
  pending (sweeperRun (st', w') ops').1.2 = []
  ∧ (sweeperRun (st', w') ops').2 = sweeperActivities ops' w'.
Proof.
  pose proof (one_timer_run ops (new config interval onClose, noTimers, w0)) as H.
  destruct (sweeperRun _ ops) as [[self timers] w]; simpl in H.
  destruct H as [Hone _]; [by left|].
  rewrite (fire_eq closeRaises now tEnd self timers w Hone).
  intros Hfire Hops. apply (idle_run ops' (st', w')); [|done].
  destruct (dueTimer now timers); [|done].
  destruct (checkConnections closeRaises self now w) as [[[]|e'] w2]; [done|].
  by simplify_eq.
Qed.

Lemma sweeping_ends_with_failed_pass_witness :
  let st' := (setTimeoutId (Some 0%nat) ex_sweeper, mkTimers 1 []) in
  let w' := evict ex_sweeper "a" 0 ex_world in
  let later := [OpTimerPhase ex_quiet 20000 20001; OpStop;
                OpTimerPhase ex_quiet 40000 40001] in
  pending (sweeperRun (st', w') later).1.2 = []
  ∧ (sweeperRun (st', w') later).2 = w'.
Proof.
  exact (sweeping_ends_with_failed_pass ex_config None
           (Some (λ client, [AppEmit "disconnect" client])) emptyWorld
           [OpActivity (λ _, ex_world); OpStart 0]
           ex_raises 10000 10001 "close failed"
           (setTimeoutId (Some 0%nat) ex_sweeper, mkTimers 1 [])
           (evict ex_sweeper "a" 0 ex_world)
           [OpTimerPhase ex_quiet 20000 20001; OpStop;
            OpTimerPhase ex_quiet 40000 40001]
           eq_refl eq_refl).
Defined.

End SchedulingFurther.

(** ** The gateway: outcomes of a handshake *)

Section HandshakeFurther.

Import SocketIOServer.

(** X8.  A handshake that has all three parameters but a key other
    than the configured one is answered with ERROR InvalidKey and
    closed, whatever the registry holds: the key is checked before the
    registry is consulted, so neither a registration nor a reconnection
    nor an ID-TAKEN answer can come of it; the registry and the records
    stay as they are and no record is created. *)
Theorem invalid_key_rejected config socket now w token k :
  socket_id socket ≠ "" →
  handshake_query socket !! "token" = Some token → token ≠ "" →
  handshake_query socket !! "key" = Some k → k ≠ "" →
  k ≠ key config →
  let w' := _onSocketConnection config socket now w in
  trace w' = trace w ++ rejection socket INVALID_KEY
  ∧ realm w' = realm w
  ∧ heap w' = heap w
  ∧ nextRef w' = nextRef w.
Proof.
  intros Hid Htok Htok' Hkey Hkey' Hbad w'. subst w'.
  unfold _onSocketConnection.
  rewrite Htok, Hkey; simpl.
  rewrite !bool_decide_eq_false_2 by done; simpl.
  rewrite bool_decide_eq_true_2 by congruence.
  by rewrite trace_sendErrorAndClose.
Qed.

Lemma invalid_key_rejected_witness :
  let socket := mkSocket 9 "sidA" (<["token" := "t1"]> (<["key" := "other"]> ∅)) in
  let w' := _onSocketConnection ex_gateway_config socket 1 ex_connected in
  trace w' = trace ex_connected ++ rejection socket INVALID_KEY
  ∧ realm w' = realm ex_connected.
Proof.
  destruct (invalid_key_rejected ex_gateway_config
              (mkSocket 9 "sidA" (<["token" := "t1"]> (<["key" := "other"]> ∅)))
              1 ex_connected "t1" "other") as (H1 & H2 & _);
    [done|done|done|done|done|done|].
  split; [exact H1 | exact H2].
Defined.

(** The two ways a handshake can end. *)
Lemma _onSocketConnection_cases config socket now w :
  let w' := _onSocketConnection config socket now w in
  (∃ m, w' = performAll [SocketEmit (handle socket) m;
                         SocketDisconnect (handle socket)] w
        ∧ (out_type m = ERROR ∨ out_type m = ID_TAKEN))
  ∨ (∃ c pre,
       trace w' = trace w ++ pre ++ [Emit (EvConnection c)]
       ∧ (pre = [] ∨ pre = [SocketEmit (handle socket) (mkOutgoing OPEN None)])
       ∧ listeners w' = listeners w ++ [(handle socket, c)]
       ∧ getSocket (heap w' c) = Some (handle socket)
       ∧ Realm.getClientById (realm w') (socket_id socket) = Some c).
Proof.
  intros w'. subst w'. unfold _onSocketConnection.
  destruct (_ || _).
  { left. eexists. rewrite trace_sendErrorAndClose. eauto. }
  destruct (bool_decide _).
  { left. eexists. rewrite trace_sendErrorAndClose. eauto. }
  destruct (Realm.getClientById (realm w) (socket_id socket)) as [c|] eqn:Hc.
  - destruct (bool_decide _).
    + left. eexists.
      split; [unfold performAll, perform; simpl; by rewrite <- app_assoc|by right].
    + right. exists c, []. unfold _configureSocket, clientSetSocket; simpl.
      rewrite fn_lookup_insert. repeat split; auto.
  - pose proof (_registerClient_eq config socket (socket_id socket)
                  (default "" (handshake_query socket !! "token")) now w) as Hreg.
    simpl in Hreg.
    destruct (Z.of_nat (Realm.count (realm w)) <? concurrent_limit config)%Z.
    + destruct Hreg as (Hh & _ & Hr & Hl & Ht). right.
      exists (nextRef w), [SocketEmit (handle socket) (mkOutgoing OPEN None)].
      rewrite Ht, Hl, Hr, Hh, fn_lookup_insert. repeat split; auto.
      unfold Realm.getClientById, Realm.setClient; simpl. apply assoc_set_eq.
    + left. eexists. rewrite Hreg. eauto.
Qed.

(** X9.  Every handshake ends in one of two ways.  Either the peer is
    turned away: it is sent exactly one message, of type ERROR or
    ID-TAKEN, the connection is then closed, and the registry and the
    records are as before.  Or it is admitted: the connection is not
    closed, its handle is in the record registered under its
    [socket.id], the listeners of that record are on the connection, and
    [connection] is emitted once, after OPEN if the identity is new. *)
Theorem handshake_turned_away_or_admitted config socket now w :
  let w' := _onSocketConnection config socket now w in
  (∃ m, trace w' = trace w ++ [SocketEmit (handle socket) m;
                               SocketDisconnect (handle socket)]
        ∧ (out_type m = ERROR ∨ out_type m = ID_TAKEN)
        ∧ realm w' = realm w
        ∧ heap w' = heap w
        ∧ nextRef w' = nextRef w)
  ∨ (∃ c pre,
       trace w' = trace w ++ pre ++ [Emit (EvConnection c)]
       ∧ (pre = [] ∨ pre = [SocketEmit (handle socket) (mkOutgoing OPEN None)])
       ∧ (handle socket, c) ∈ listeners w'
       ∧ getSocket (heap w' c) = Some (handle socket)
       ∧ Realm.getClientById (realm w') (socket_id socket) = Some c).
Proof.
  intros w'.
  destruct (_onSocketConnection_cases config socket now w)
    as [(m & Hw & Hm)|(c & pre & Ht & Hpre & Hl & Hs & Hr)].
  - left. exists m. subst w'. rewrite Hw. by repeat split.
  - right. exists c, pre. subst w'. repeat split; try done.
    rewrite Hl. apply elem_of_app. right. by left.
Qed.

End HandshakeFurther.

(** ** The gateway: the registry along a history *)

Section AssocKeys.

Context {A : Type}.
Implicit Types (k : string) (l : list (string * A)).

Lemma assoc_None_keys k l : assoc k l = None → k ∉ l.*1.
Proof.
  induction l as [|[k' v] l IH]; simpl; [by intros _ ?%elem_of_nil|].
  case_decide; [done|]. intros Hn [?|?]%elem_of_cons; [done|by apply IH].
Qed.

Lemma assoc_set_fresh_keys k x l :
  assoc k l = None → (assoc_set k x l).*1 = l.*1 ++ [k].
Proof.
  induction l as [|[k' v] l IH]; simpl; [done|].
  case_decide; [done|]. intros Hn. rewrite !fmap_cons. by rewrite IH.
Qed.

Lemma assoc_del_keys k k' l : k' ∈ (assoc_del k l).*1 → k' ∈ l.*1.
Proof.
  induction l as [|[k'' v] l IH]; simpl; [done|].
  case_decide; simpl.
  - intros ?. right. by apply IH.
  - intros [->|?]%elem_of_cons; [by left|right; by apply IH].
Qed.

Lemma assoc_del_keys_NoDup k l : NoDup l.*1 → NoDup (assoc_del k l).*1.
Proof.
  induction l as [|[k' v] l IH]; simpl; [done|].
  intros [Hnotin Hnd]%NoDup_cons. case_decide; [by apply IH|].
  simpl. apply NoDup_cons. split; [|by apply IH].
  intros Hin. by apply Hnotin, (assoc_del_keys k).
Qed.

Lemma assoc_del_absent k l : assoc k l = None → assoc_del k l = l.
Proof.
  induction l as [|[k' v] l IH]; simpl; [done|].
  case_decide; [done|]. intros Hn. by rewrite IH.
Qed.

Lemma assoc_del_set_fresh k x l :
  assoc k l = None → assoc_del k (assoc_set k x l) = l.
Proof.
  induction l as [|[k' v] l IH]; simpl.
  - intros _. by rewrite decide_True.
  - case_decide; [done|]. intros Hn. simpl. rewrite decide_False by done.
    by rewrite IH.
Qed.

End AssocKeys.

Section RegistryInvariant.

Import SocketIOServer.

Variable JSON_parse : string → Error + JValue.
Variable config : IConfig.

(** What the ["message"] listener does, in one piece. *)
Lemma onMessage_eq c data w :
  (onMessage JSON_parse c data w).2 =
  perform
    match decodeFrame JSON_parse data with
    | inr (JObject cls props) =>
        Emit (EvMessage c
                (JObject cls (setProp "src" (JString (getId (heap w c))) props)))
    | inr _ => Emit (EvError "TypeError")
    | inl e => Emit (EvError e)
    end w.
Proof.
  unfold onMessage, tryCatch, mbind, M_bind, parseFrame, decodeFrame, gets,
    assignSrc, modify.
  destruct data as [| | | |text|cls props]; simpl; try done.
  by destruct (JSON_parse text) as [e|[| | | | |cls props]].
Qed.

Lemma rejection_no_message socket msg c m :
  Emit (EvMessage c m) ∉ rejection socket msg.
Proof.
  unfold rejection. rewrite !not_elem_of_cons.
  repeat split; try done. by intros ?%elem_of_nil.
Qed.

(** What an event on a socket leaves alone. *)
Lemma dispatch_message_frame socket data w :
  let w' := dispatch JSON_parse config (Message socket data) w in
  heap w' = heap w ∧ nextRef w' = nextRef w ∧ realm w' = realm w
  ∧ listeners w' = listeners w
  ∧ ∃ es, trace w' = trace w ++ es
          ∧ length es = length (filter (λ l, l.1 = socket) (listeners w))
          ∧ Forall (λ e, (∃ err, e = Emit (EvError err))
                         ∨ ∃ c cls props,
                             (socket, c) ∈ listeners w
                             ∧ e = Emit (EvMessage c
                                     (JObject cls
                                        (setProp "src" (JString (getId (heap w c)))
                                           props)))) es.
Proof.
  simpl.
  assert (∀ ls w1,
            heap w1 = heap w → nextRef w1 = nextRef w → realm w1 = realm w →
            listeners w1 = listeners w → (∀ l, l ∈ ls → l ∈ listeners w) →
            let w' := foldl (λ w l, if decide (l.1 = socket)
                                    then (onMessage JSON_parse l.2 data w).2 else w)
                            w1 ls in
            heap w' = heap w ∧ nextRef w' = nextRef w ∧ realm w' = realm w
            ∧ listeners w' = listeners w
            ∧ ∃ es, trace w' = trace w1 ++ es
                    ∧ length es = length (filter (λ l, l.1 = socket) ls)
                    ∧ Forall (λ e, (∃ err, e = Emit (EvError err))
                                   ∨ ∃ c cls props,
                                       (socket, c) ∈ listeners w
                                       ∧ e = Emit (EvMessage c
                                               (JObject cls
                                                  (setProp "src"
                                                     (JString (getId (heap w c)))
                                                     props)))) es) as Hfold.
  { induction ls as [|[s c] ls IH]; intros w1 Hh Hn Hr Hl Hin; simpl.
    - repeat split; try done. exists []. by rewrite app_nil_r.
    - rewrite filter_cons; simpl. case_decide as Hs.
      + subst s. rewrite onMessage_eq.
        set (e := match decodeFrame JSON_parse data with
                  | inl _ => _ | inr _ => _ end).
        destruct (IH (perform e w1)) as (G1 & G2 & G3 & G4 & es & G5 & G6 & G7);
          try done.
        { intros l ?. apply Hin. by right. }
        repeat split; try done. exists (e :: es). simpl.
        split; [rewrite G5; simpl; by rewrite <- app_assoc|]. split; [by rewrite G6|].
        constructor; [|done]. subst e. rewrite Hh.
        destruct (decodeFrame JSON_parse data) as [err|[| | | | |cls props]]; eauto.
        right. exists c, cls, props. split; [|done]. apply Hin. by left.
      + apply IH; try done. intros l ?. apply Hin. by right. }
  by apply Hfold.
Qed.

Lemma dispatch_disconnect_frame socket w :
  let w' := dispatch JSON_parse config (Disconnect socket) w in
  heap w' = heap w ∧ nextRef w' = nextRef w ∧ listeners w' = listeners w
  ∧ (NoDup (Realm.getClientsIds (realm w)) → NoDup (Realm.getClientsIds (realm w')))
  ∧ (∀ k x, Realm.getClientById (realm w') k = Some x →
            Realm.getClientById (realm w) k = Some x)
  ∧ ∃ es, trace w' = trace w ++ es ∧ Forall (λ e, ∃ c, e = Emit (EvClose c)) es.
Proof.
  simpl.
  apply (foldl_invariant
           (λ w', heap w' = heap w ∧ nextRef w' = nextRef w ∧ listeners w' = listeners w
                  ∧ (NoDup (Realm.getClientsIds (realm w)) →
                     NoDup (Realm.getClientsIds (realm w')))
                  ∧ (∀ k x, Realm.getClientById (realm w') k = Some x →
                            Realm.getClientById (realm w) k = Some x)
                  ∧ ∃ es, trace w' = trace w ++ es
                          ∧ Forall (λ e, ∃ c, e = Emit (EvClose c)) es)).
  - intros w1 [s c] _ (Hh & Hn & Hl & Hnd & Hsh & es & Ht & Hes); simpl.
    case_decide; [|by eauto 10]. unfold onDisconnect.
    case_decide; [|by eauto 10]. simpl.
    repeat split; try done.
    + intros H'. unfold Realm.getClientsIds, Realm.removeClientById; simpl.
      by apply assoc_del_keys_NoDup, Hnd.
    + intros k x Hk. apply Hsh. unfold Realm.getClientById in *; simpl in Hk.
      by apply assoc_del_Some in Hk.
    + exists (es ++ [Emit (EvClose c)]). rewrite Ht, <- app_assoc.
      split; [done|]. apply Forall_app. split; [done|]. repeat constructor. eauto.
  - repeat split; try done. exists []. by rewrite app_nil_r.
Qed.

Lemma registry_inv_dispatch ev w :
  registry_inv w → registry_inv (dispatch JSON_parse config ev w).
Proof.
  intros (Hnd & Hreg & Hls & Hmsg).
  destruct ev as [socket now|socket|socket data].
  - (* a connection *)
    assert (∀ es, (∀ c m, Emit (EvMessage c m) ∉ es) → registry_inv (performAll es w))
      as Hrej.
    { intros es Hes. split; [done|]. split; [done|]. split; [done|].
      intros c m [?|?]%elem_of_app; [by apply Hmsg|]. by destruct (Hes c m). }
    simpl. unfold _onSocketConnection.
    destruct (_ || _).
    { rewrite trace_sendErrorAndClose. apply Hrej. intros c m.
      apply rejection_no_message. }
    destruct (bool_decide _).
    { rewrite trace_sendErrorAndClose. apply Hrej. intros c m.
      apply rejection_no_message. }
    destruct (Realm.getClientById (realm w) (socket_id socket)) as [client|] eqn:Hc.
    + destruct (bool_decide _).
      { change (perform ?e2 (perform ?e1 w)) with (perform e2 (perform e1 w)).
        split; [done|]. split; [done|]. split; [done|].
        simpl. intros c m [[?|?]%elem_of_app|?]%elem_of_app.
        - by apply Hmsg.
        - by apply list_elem_of_singleton in H.
        - by apply list_elem_of_singleton in H. }
      destruct (Hreg _ _ Hc) as (Hlt & Hid & _).
      unfold _configureSocket, clientSetSocket; simpl.
      assert (∀ c, getId ((<[client:=setSocket (Some (handle socket)) (heap w client)]>
                             (heap w)) c) = getId (heap w c)) as Hids.
      { intros c. destruct (decide (client = c)) as [->|Hne].
        - by rewrite fn_lookup_insert.
        - by rewrite fn_lookup_insert_ne. }
      split; [done|]. split; [|split]; simpl.
      * intros id c Hl. destruct (Hreg _ _ Hl) as (Hlt' & Hid' & Hs').
        rewrite Hids. split; [done|]. split; [done|].
        destruct (decide (client = c)) as [->|Hne].
        -- rewrite fn_lookup_insert. by eexists.
        -- by rewrite fn_lookup_insert_ne.
      * intros s c [?|Hl%list_elem_of_singleton]%elem_of_app; [by eapply Hls|].
        by simplify_eq.
      * intros c m [?|Hl%list_elem_of_singleton]%elem_of_app; [|done].
        rewrite Hids. by apply Hmsg.
    + pose proof (_registerClient_eq config socket (socket_id socket)
                    (default "" (handshake_query socket !! "token")) now w) as Hr.
      simpl in Hr.
      destruct (Z.of_nat (Realm.count (realm w)) <? concurrent_limit config)%Z.
      2:{ rewrite Hr. apply Hrej. intros c m. apply rejection_no_message. }
      destruct Hr as (Hh & Hn & Hr & Hl & Ht).
      set (w' := _registerClient _ _ _ _ _ _) in *.
      assert (∀ c, (c < nextRef w)%nat → heap w' c = heap w c) as Hold.
      { intros c Hlt. rewrite Hh, fn_lookup_insert_ne; [done|lia]. }
      split; [|split; [|split]].
      * rewrite Hr. unfold Realm.getClientsIds, Realm.setClient; simpl.
        rewrite assoc_set_fresh_keys by done.
        apply NoDup_app. split; [done|]. split; [|apply NoDup_singleton].
        intros k Hk ->%list_elem_of_singleton. by apply (assoc_None_keys _ _ Hc).
      * intros id c. rewrite Hr, Hn.
        unfold Realm.getClientById, Realm.setClient; simpl.
        destruct (decide (socket_id socket = id)) as [<-|Hne].
        -- rewrite assoc_set_eq. intros [= <-]. rewrite Hh, fn_lookup_insert.
           split; [lia|]. split; [done|]. by eexists.
        -- rewrite assoc_set_ne by done. intros Hk.
           destruct (Hreg _ _ Hk) as (Hlt & Hid & Hs). rewrite Hold by done.
           split; [lia|done].
      * intros s c. rewrite Hl, Hn.
        intros [Hin|Hin%list_elem_of_singleton]%elem_of_app.
        -- pose proof (Hls _ _ Hin). lia.
        -- simplify_eq. lia.
      * intros c m. rewrite Ht, Hn.
        intros [Hin|[Hin|Hin%list_elem_of_singleton]%elem_of_cons]%elem_of_app;
          [|done|done].
        destruct (Hmsg _ _ Hin) as [Hlt Hsrc]. rewrite Hold by done.
        split; [lia|done].
  - (* a disconnect *)
    destruct (dispatch_disconnect_frame socket w) as (Hh & Hn & Hl & Hnd' & Hsh & es & Ht & Hes).
    set (w' := dispatch _ _ _ w) in *.
    split; [by apply Hnd'|]. split; [|split].
    + intros id c Hk. rewrite Hn, Hh. by apply Hreg, Hsh.
    + intros s c. rewrite Hl, Hn. apply Hls.
    + intros c m. rewrite Ht, Hn, Hh. intros [?|Hin]%elem_of_app; [by apply Hmsg|].
      rewrite Forall_forall in Hes. by destruct (Hes _ Hin).
  - (* a frame *)
    destruct (dispatch_message_frame socket data w)
      as (Hh & Hn & Hr & Hl & es & Ht & _ & Hes).
    set (w' := dispatch _ _ _ w) in *.
    split; [by rewrite Hr|]. split; [|split].
    + intros id c. rewrite Hr, Hn, Hh. apply Hreg.
    + intros s c. rewrite Hl, Hn. apply Hls.
    + intros c m. rewrite Ht, Hn, Hh. intros [?|Hin]%elem_of_app; [by apply Hmsg|].
      rewrite Forall_forall in Hes.
      destruct (Hes _ Hin) as [[err ?]|(c' & cls & props & Hlc & Heq)]; [done|].
      simplify_eq. split; [by eapply Hls|]. apply assoc_set_eq.
Qed.

Lemma registry_inv_run evs w :
  registry_inv w → registry_inv (run JSON_parse config evs w).
Proof.
  revert w. induction evs as [|ev evs IH]; intros w Hw; [done|].
  simpl. by apply IH, registry_inv_dispatch.
Qed.

Lemma registry_inv_empty : registry_inv emptyWorld.
Proof.
  split; [apply NoDup_nil_2|]. split; [done|].
  split; [by intros s c ?%elem_of_nil | by intros c m ?%elem_of_nil].
Qed.

End RegistryInvariant.

Section GatewayFurther.

Import SocketIOServer.

Variable JSON_parse : string → Error + JValue.
Variable config : IConfig.

(** X10.  Along every history of a gateway that starts with an empty
    registry, whatever the transport delivers: no id is registered
    twice, and the record registered under an id is an allocated record
    that carries this id and holds a handle. *)
Theorem registered_ids_unique evs :
  let w := run JSON_parse config evs emptyWorld in
  NoDup (Realm.getClientsIds (realm w))
  ∧ ∀ id c, Realm.getClientById (realm w) id = Some c →
            (c < nextRef w)%nat ∧ getId (heap w c) = id
            ∧ is_Some (getSocket (heap w c)).
Proof.
  destruct (registry_inv_run JSON_parse config evs emptyWorld registry_inv_empty)
    as (H1 & H2 & _).
  by split.
Qed.

(** X11.  Along every such history, every [message] event the gateway
    has emitted carries as [src] the id of the record it was emitted
    for: no frame, whatever it declares, gets another source. *)
Theorem every_message_has_record_id evs c m :
  let w := run JSON_parse config evs emptyWorld in
  Emit (EvMessage c m) ∈ trace w →
  srcOf m = Some (JString (getId (heap w c))).
Proof.
  destruct (registry_inv_run JSON_parse config evs emptyWorld registry_inv_empty)
    as (_ & _ & _ & H4).
  intros w Hin. by destruct (H4 _ _ Hin).
Qed.


Lemma handles_inv_frame seen w w' :
  heap w' = heap w → nextRef w' = nextRef w →
  handles_inv seen w → handles_inv seen w'.
Proof. intros Hh Hn [H1 H2]. unfold handles_inv. rewrite Hh, Hn. by split. Qed.

Lemma handles_inv_seen seen s w : handles_inv seen w → handles_inv (s :: seen) w.
Proof. intros [H1 H2]. split; [|done]. intros c s' Hlt Hs. right. by eapply H1. Qed.

Lemma handles_inv_attach seen h c w w' :
  h ∉ seen → handles_inv seen w →
  (∀ c', c' ≠ c → heap w' c' = heap w c') →
  getSocket (heap w' c) = Some h →
  (∀ c', (c' < nextRef w')%nat → c' ≠ c → (c' < nextRef w)%nat) →
  handles_inv (h :: seen) w'.
Proof.
  intros Hfresh [H1 H2] Hother Hc Hlt.
  assert (∀ c' s, c' ≠ c → (c' < nextRef w')%nat → getSocket (heap w' c') = Some s →
                  (c' < nextRef w)%nat ∧ s ∈ seen ∧ getSocket (heap w c') = Some s)
    as Hold.
  { intros c' s Hne Hlt' Hs. rewrite Hother in Hs by done.
    pose proof (Hlt _ Hlt' Hne). eauto. }
  split.
  - intros c' s Hlt' Hs. destruct (decide (c' = c)) as [->|Hne].
    + assert (s = h) as -> by congruence. by left.
    + right. by destruct (Hold _ _ Hne Hlt' Hs) as (_ & ? & _).
  - intros c1 c2 s Hlt1 Hlt2 Hs1 Hs2.
    destruct (decide (c1 = c)) as [->|Hne1], (decide (c2 = c)) as [->|Hne2]; [done| | |].
    + destruct (Hold _ _ Hne2 Hlt2 Hs2) as (_ & Hin & _). congruence.
    + destruct (Hold _ _ Hne1 Hlt1 Hs1) as (_ & Hin & _). congruence.
    + destruct (Hold _ _ Hne1 Hlt1 Hs1) as (? & _ & ?).
      destruct (Hold _ _ Hne2 Hlt2 Hs2) as (? & _ & ?). by eapply H2.
Qed.

Lemma handles_inv_connection seen socket now w :
  handle socket ∉ seen →
  registry_inv w → handles_inv seen w →
  handles_inv (handle socket :: seen) (_onSocketConnection config socket now w).
Proof.
  intros Hfresh (_ & Hreg & _) Hinv. unfold _onSocketConnection.
  destruct (_ || _); [by apply handles_inv_seen|].
  destruct (bool_decide _); [by apply handles_inv_seen|].
  destruct (Realm.getClientById (realm w) (socket_id socket)) as [client|] eqn:Hc.
  - destruct (bool_decide _); [by apply handles_inv_seen|].
    apply (handles_inv_attach seen (handle socket) client w); try done.
    + intros c' Hne. unfold _configureSocket, clientSetSocket; simpl.
      by rewrite fn_lookup_insert_ne.
    + unfold _configureSocket, clientSetSocket; simpl. by rewrite fn_lookup_insert.
  - pose proof (_registerClient_eq config socket (socket_id socket)
                  (default "" (handshake_query socket !! "token")) now w) as Hr.
    simpl in Hr.
    destruct (Z.of_nat (Realm.count (realm w)) <? concurrent_limit config)%Z;
      [|rewrite Hr; by apply handles_inv_seen].
    destruct Hr as (Hh & Hn & _).
    apply (handles_inv_attach seen (handle socket) (nextRef w) w); try done.
    + intros c' Hne. by rewrite Hh, fn_lookup_insert_ne.
    + by rewrite Hh, fn_lookup_insert.
    + intros c'. rewrite Hn. lia.
Qed.

Lemma both_inv_run evs seen w :
  fresh_sockets seen evs →
  registry_inv w → handles_inv seen w →
  ∃ seen', handles_inv seen' (run JSON_parse config evs w).
Proof.
  revert seen w. induction evs as [|ev evs IH]; intros seen w Hfresh Hreg Hinv.
  - by exists seen.
  - pose proof (registry_inv_dispatch JSON_parse config ev w Hreg) as Hreg'.
    destruct ev as [socket now|socket|socket data]; simpl in Hfresh.
    + destruct Hfresh as [Hf Hfresh].
      apply (IH _ _ Hfresh Hreg'). by apply handles_inv_connection.
    + apply (IH _ _ Hfresh Hreg').
      destruct (dispatch_disconnect_frame JSON_parse config socket w) as (Hh & Hn & _).
      by apply (handles_inv_frame _ w).
    + apply (IH _ _ Hfresh Hreg').
      destruct (dispatch_message_frame JSON_parse config socket data w) as (Hh & Hn & _).
      by apply (handles_inv_frame _ w).
Qed.

(** X13.  When each connection event brings a socket object of its
    own, a handle is held by one identity at most: two registered ids
    whose records hold the same handle are the same id. *)
Theorem handle_owned_by_one_identity evs id1 id2 c1 c2 s :
  fresh_sockets [] evs →
  let w := run JSON_parse config evs emptyWorld in
  Realm.getClientById (realm w) id1 = Some c1 →
  Realm.getClientById (realm w) id2 = Some c2 →
  getSocket (heap w c1) = Some s →
  getSocket (heap w c2) = Some s →
  id1 = id2.
Proof.
  intros Hfresh w Hc1 Hc2 Hs1 Hs2.
  destruct (registry_inv_run JSON_parse config evs emptyWorld registry_inv_empty)
    as (_ & Hreg & _).
  destruct (both_inv_run evs [] emptyWorld Hfresh registry_inv_empty)
    as (seen & _ & H2).
  { split; simpl; intros; lia. }
  destruct (Hreg _ _ Hc1) as (Hlt1 & Hid1 & _).
  destruct (Hreg _ _ Hc2) as (Hlt2 & Hid2 & _).
  assert (c1 = c2) by (by eapply H2). congruence.
Qed.

End GatewayFurther.

Lemma every_message_has_record_id_witness :
  let frame := JObject PlainObject [("type", JString "OFFER"); ("src", JString "mallory")] in
  let w := SocketIOServer.run ex_parse ex_gateway_config
             [SocketIOServer.Connection ex_socket_a 0;
              SocketIOServer.Message (Socket 1) frame] emptyWorld in
  srcOf (JObject PlainObject [("type", JString "OFFER"); ("src", JString "sidA")])
  = Some (JString (getId (heap w 0%nat))).
Proof.
  apply (every_message_has_record_id ex_parse ex_gateway_config
           [SocketIOServer.Connection ex_socket_a 0;
            SocketIOServer.Message (Socket 1)
              (JObject PlainObject [("type", JString "OFFER"); ("src", JString "mallory")])]
           0%nat).
  apply list_elem_of_lookup. by exists 2%nat.
Defined.

Lemma handle_owned_by_one_identity_witness : "sidA" = "sidA".
Proof.
  apply (handle_owned_by_one_identity ex_parse ex_gateway_config
           [SocketIOServer.Connection ex_socket_a 0] "sidA" "sidA" 0%nat 0%nat (Socket 1));
    try reflexivity.
  simpl. split; [by intros ?%elem_of_nil|done].
Defined.

(** ** The gateway: a connection that comes and goes *)

Section ComeAndGo.

Import SocketIOServer.

Variable JSON_parse : string → Error + JValue.
Variable config : IConfig.

Lemma foldl_no_listener (socket : Transport) (f : World → ClientRef → World)
    (ls : list (Transport * ClientRef)) w :
  (∀ c, (socket, c) ∉ ls) →
  foldl (λ w l, if decide (l.1 = socket) then f w l.2 else w) w ls = w.
Proof.
  induction ls as [|[s c] ls IH]; intros Hno; [done|]. simpl.
  rewrite decide_False.
  - apply IH. intros c' Hin. apply (Hno c'). by right.
  - intros ->. apply (Hno c). by left.
Qed.

(** X14.  A new identity that is admitted and whose connection then
    disconnects leaves the identity table as it was before it came: the
    peer was sent OPEN, and the gateway emitted [connection] and then
    [close] for its record. *)
Theorem admitted_then_disconnected socket now w token :
  socket_id socket ≠ "" →
  handshake_query socket !! "token" = Some token → token ≠ "" →
  handshake_query socket !! "key" = Some (key config) → key config ≠ "" →
  Realm.getClientById (realm w) (socket_id socket) = None →
  (Z.of_nat (Realm.count (realm w)) < concurrent_limit config)%Z →
  (∀ c, (handle socket, c) ∉ listeners w) →
  let w' := run JSON_parse config
              [Connection socket now; Disconnect (handle socket)] w in
  Realm.clients (realm w') = Realm.clients (realm w)
  ∧ trace w' = trace w ++ [SocketEmit (handle socket) (mkOutgoing OPEN None);
                           Emit (EvConnection (nextRef w));
                           Emit (EvClose (nextRef w))].
Proof.
  intros Hid Htok Htok' Hkey Hkey' Hnew Hroom Hno w'. subst w'.
  unfold run. cbn [foldl]. cbn [dispatch].
  rewrite (_onSocketConnection_checked _ _ _ _ token) by done. rewrite Hnew.
  pose proof (_registerClient_eq config socket (socket_id socket) token now w) as Hreg.
  simpl in Hreg. rewrite (proj2 (Z.ltb_lt _ _) Hroom) in Hreg.
  destruct Hreg as (Hh & Hn & Hr & Hl & Ht).
  set (w1 := _registerClient _ _ _ _ _ _) in *.
  rewrite Hl, foldl_app.
  rewrite (foldl_no_listener (handle socket)
             (λ w c, onDisconnect (handle socket) c w) (listeners w) w1 Hno).
  cbn [foldl fst snd]. rewrite decide_True by done.
  assert (heap w1 (nextRef w)
          = mkClient (socket_id socket) token (Some (handle socket)) now) as Hrec
    by (by rewrite Hh, fn_lookup_insert).
  unfold onDisconnect. rewrite Hrec. cbn [getSocket client_socket].
  rewrite decide_True by done. cbn [getId client_id]. simpl.
  rewrite Hr, Ht. simpl. split.
  - by apply assoc_del_set_fresh.
  - by rewrite <- app_assoc.
Qed.

Lemma no_capacity_dispatch ev w :
  (concurrent_limit config ≤ 0)%Z →
  Realm.clients (realm w) = [] →
  Realm.clients (realm (dispatch JSON_parse config ev w)) = [].
Proof.
  intros Hcap Hempty. destruct ev as [socket now|socket|socket data].
  - simpl. unfold _onSocketConnection.
    destruct (_ || _); [done|]. destruct (bool_decide _); [done|].
    unfold Realm.getClientById. rewrite Hempty. simpl.
    pose proof (_registerClient_eq config socket (socket_id socket)
                  (default "" (handshake_query socket !! "token")) now w) as Hreg.
    simpl in Hreg. unfold Realm.count, Realm.getClientsIds in Hreg.
    rewrite Hempty in Hreg. simpl in Hreg.
    rewrite (proj2 (Z.ltb_ge _ _)) in Hreg by done. by rewrite Hreg.
  - destruct (dispatch_disconnect_frame JSON_parse config socket w)
      as (_ & _ & _ & _ & Hsh & _).
    destruct (Realm.clients (realm (dispatch _ _ _ w))) as [|[k x] l] eqn:E; [done|].
    specialize (Hsh k x). unfold Realm.getClientById in Hsh.
    rewrite E, Hempty in Hsh. simpl in Hsh. rewrite decide_True in Hsh by done.
    by specialize (Hsh eq_refl).
  - destruct (dispatch_message_frame JSON_parse config socket data w)
      as (_ & _ & Hr & _).
    by rewrite Hr.
Qed.

(** X15.  With a [concurrent_limit] of zero or less nobody is ever
    admitted as a new identity: along every history from an empty
    registry the registry stays empty. *)
Theorem no_capacity_no_identity evs :
  (concurrent_limit config ≤ 0)%Z →
  Realm.clients (realm (run JSON_parse config evs emptyWorld)) = [].
Proof.
  intros Hcap.
  assert (∀ w, Realm.clients (realm w) = [] →
               Realm.clients (realm (run JSON_parse config evs w)) = []) as H.
  { induction evs as [|ev evs' IH]; intros w Hw; [done|].
    simpl. by apply IH, no_capacity_dispatch. }
  by apply H.
Qed.

End ComeAndGo.

Lemma admitted_then_disconnected_witness :
  let w' := SocketIOServer.run ex_parse ex_gateway_config
              [SocketIOServer.Connection ex_socket_a 0;
               SocketIOServer.Disconnect (Socket 1)] emptyWorld in
  Realm.clients (realm w') = []
  ∧ trace w' = [SocketEmit (Socket 1) (mkOutgoing OPEN None);
                Emit (EvConnection 0); Emit (EvClose 0)].
Proof.
  destruct (admitted_then_disconnected ex_parse ex_gateway_config
              ex_socket_a 0 emptyWorld "t1")
    as (H1 & H2); [done|done|done|done|done|done|done| |].
  - by intros c ?%elem_of_nil.
  - split; [exact H1 | exact H2].
Defined.

Lemma no_capacity_no_identity_witness :
  Realm.clients
    (realm (SocketIOServer.run ex_parse (mkConfig "socketio" "peerjs" 0 5000)
              [SocketIOServer.Connection ex_socket_a 0] emptyWorld)) = [].
Proof.
  apply (no_capacity_no_identity ex_parse (mkConfig "socketio" "peerjs" 0 5000)).
  simpl. lia.
Defined.

(** ** The gateway: its path *)

Lemma string_app_assoc (a b c : string) : ((a ++ b) ++ c = a ++ (b ++ c))%string.
Proof.
  induction a as [|x a IH]; [done|].
  change (String x ((a ++ b) ++ c) = String x (a ++ (b ++ c)))%string.
  by rewrite IH.
Qed.

Lemma endsWith_eq s t :
  endsWith s t =
  if String.eqb s t then true
  else match s with
       | EmptyString => false
       | String _ s' => endsWith s' t
       end.
Proof. by destruct s. Qed.

Lemma endsWith_refl s : endsWith s s = true.
Proof. by rewrite endsWith_eq, String.eqb_refl. Qed.

Lemma endsWith_app a b : endsWith (a ++ b)%string b = true.
Proof.
  induction a as [|x a IH]; [apply endsWith_refl|].
  change (String x a ++ b)%string with (String x (a ++ b)%string).
  rewrite endsWith_eq. by destruct (String.eqb _ _).
Qed.

Lemma endsWith_split s t : endsWith s t = true → ∃ q, s = (q ++ t)%string.
Proof.
  induction s as [|x s IH]; rewrite endsWith_eq.
  - destruct (String.eqb "" t) eqn:E; [|done].
    apply String.eqb_eq in E as <-. by exists "".
  - destruct (String.eqb (String x s) t) eqn:E.
    + apply String.eqb_eq in E as <-. by exists "".
    + intros [q ->]%IH. by exists (String x q).
Qed.

(** X16.  The path a gateway announces always ends in ["/peerjs"]; a
    configured path gives the same result with and without its final
    slash, and no slash is added to one that already ends in a slash. *)
Theorem socketServerPath_slash path :
  endsWith (socketServerPath path) "/peerjs" = true
  ∧ socketServerPath (path ++ "/")%string = (path ++ "/peerjs")%string
  ∧ (endsWith path "/" = false →
     socketServerPath path = socketServerPath (path ++ "/")%string)
  ∧ (endsWith path "/" = true → socketServerPath path = (path ++ "peerjs")%string).
Proof.
  assert (socketServerPath (path ++ "/")%string = (path ++ "/peerjs")%string) as Hslash.
  { unfold socketServerPath. rewrite endsWith_app. simpl.
    by rewrite string_app_assoc. }
  split; [|split; [done|split]].
  - unfold socketServerPath. destruct (endsWith path "/") eqn:E.
    + apply endsWith_split in E as [q ->]. simpl.
      rewrite string_app_assoc. apply endsWith_app.
    + apply (endsWith_app path "/peerjs").
  - intros E. rewrite Hslash. unfold socketServerPath. by rewrite E.
  - intros E. unfold socketServerPath. by rewrite E.
Qed.

Lemma socketServerPath_slash_witness :
  socketServerPath "/myapp" = socketServerPath "/myapp/"
  ∧ socketServerPath "/" = "/peerjs".
Proof.
  destruct (socketServerPath_slash "/myapp") as (_ & _ & H3 & _).
  destruct (socketServerPath_slash "/") as (_ & _ & _ & H4).
  split; [apply H3; reflexivity | apply H4; reflexivity].
Defined.

(** ** The gateway: a peer that was turned away *)

Section TurnedAway.

Import SocketIOServer.

Variable JSON_parse : string → Error + JValue.
Variable config : IConfig.

(** X17.  A connection that was turned away has no listener on it:
    when the handshake ends with the connection closed, the disconnect
    event of that socket, which the close brings about, changes
    nothing, so nothing is removed from the registry and no [close] is
    emitted for a peer that was never admitted. *)
Theorem turned_away_disconnect_is_silent socket now w m :
  (∀ c, (handle socket, c) ∉ listeners w) →
  let w' := _onSocketConnection config socket now w in
  w' = performAll [SocketEmit (handle socket) m; SocketDisconnect (handle socket)] w →
  dispatch JSON_parse config (Disconnect (handle socket)) w' = w'.
Proof.
  intros Hno w' Hw'. rewrite Hw'. cbn [dispatch].
  apply (foldl_no_listener (handle socket)
           (λ w c, onDisconnect (handle socket) c w)).
  exact Hno.
Qed.

End TurnedAway.

Lemma turned_away_disconnect_is_silent_witness :
  let w' := SocketIOServer._onSocketConnection
              ex_gateway_config ex_socket_b 1 ex_connected in
  SocketIOServer.dispatch ex_parse ex_gateway_config
    (SocketIOServer.Disconnect (Socket 3)) w' = w'.
Proof.
  apply (turned_away_disconnect_is_silent ex_parse ex_gateway_config ex_socket_b 1
           ex_connected
           (mkOutgoing ERROR (Some (ErrorsText CONNECTION_LIMIT_EXCEED)))).
  - intros c [[=]|?%elem_of_nil]%elem_of_cons. done.
  - reflexivity.
Defined.

(** ** Instance wiring: the sweeper of a raw-socket instance *)

Section InstanceFurther.

Import CheckBrokenConnections.

Lemma instance_sweeper_step options inst ev s :
  checkBrokenConnections inst = Some s →
  checkInterval s = 300%Z → config s = options →
  onClose s = Some (λ client, [AppEmit "disconnect" client]) →
  one_timer (s, timers inst) →
  ∃ s', checkBrokenConnections (instanceStep inst ev) = Some s'
        ∧ checkInterval s' = 300%Z ∧ config s' = options
        ∧ onClose s' = Some (λ client, [AppEmit "disconnect" client])
        ∧ one_timer (s', timers (instanceStep inst ev)).
Proof.
  intros Hs Hi Hc Ho Hone. destruct ev as [closeRaises now tEnd|f];
    unfold instanceStep.
  - rewrite Hs, (fire_eq closeRaises now tEnd s (timers inst) (world inst) Hone).
    destruct (dueTimer now (timers inst)); [|simpl; by eauto 10].
    destruct (checkConnections closeRaises s now (world inst)) as [[[]|e] w1]; simpl.
    + eexists. split; [done|]. repeat split; try done. right; simpl; eauto.
    + eexists. split; [done|]. repeat split; try done. by left.
  - simpl. eauto 10.
Qed.

(** X18.  On an instance of any other server type than ["socketio"]
    the sweeper stays as [createInstance] made it, whatever happens: its
    interval is 300, its configuration is the instance's options (the
    timeout it applies is their [alive_timeout]), its callback emits
    ["disconnect"] on the application, and at most one of its timers is
    pending. *)
Theorem instance_sweeper_stays options now evs :
  server_type options ≠ "socketio" →
  let inst := instanceRun (createInstance options now) evs in
  ∃ s, checkBrokenConnections inst = Some s
       ∧ checkInterval s = 300%Z
       ∧ config s = options
       ∧ onClose s = Some (λ client, [AppEmit "disconnect" client])
       ∧ (length (pending (timers inst)) ≤ 1)%nat.
Proof.
  intros Hty inst.
  assert (∀ i, (∃ s, checkBrokenConnections i = Some s
                     ∧ checkInterval s = 300%Z ∧ config s = options
                     ∧ onClose s = Some (λ client, [AppEmit "disconnect" client])
                     ∧ one_timer (s, timers i)) →
               ∃ s, checkBrokenConnections (instanceRun i evs) = Some s
                    ∧ checkInterval s = 300%Z ∧ config s = options
                    ∧ onClose s = Some (λ client, [AppEmit "disconnect" client])
                    ∧ one_timer (s, timers (instanceRun i evs))) as Hrun.
  { induction evs as [|ev evs' IH]; intros i Hi; [done|].
    destruct Hi as (s & H1 & H2 & H3 & H4 & H5). simpl. apply IH.
    by apply (instance_sweeper_step options i ev s). }
  destruct (Hrun (createInstance options now)) as (s & H1 & H2 & H3 & H4 & H5).
  { unfold createInstance. repeat case_decide; try done.
    eexists. split; [done|]. repeat split; try done. right; simpl; eauto. }
  exists s. repeat split; try done.
  destruct H5 as [Hp|(i & due & Hp & _)]; simpl in Hp; subst inst; rewrite Hp;
    simpl; lia.
Qed.

Lemma instance_sweeper_stays_witness :
  ∃ s, checkBrokenConnections
         (instanceRun (createInstance ex_config 0)
            [Activity (λ _, ex_world); TimerPhase ex_raises 10000 10001]) = Some s
       ∧ checkInterval s = 300%Z.
Proof.
  destruct (instance_sweeper_stays ex_config 0
              [Activity (λ _, ex_world); TimerPhase ex_raises 10000 10001])
    as (s & H1 & H2 & _); [done|].
  exists s. split; [exact H1 | exact H2].
Defined.

End InstanceFurther.
